(** * The Lua bridges of the file_diff and spellcheck modules

    A shallow embedding of [file_diff/ldiff.cxx] and [spellcheck/lspell.cxx].
    Both files are thin bindings: they read their arguments from the Lua
    stack, call a native library (diff_match_patch, Hunspell) and marshal the
    result back into Lua values.  The embedding therefore has three layers:

    - C strings and the part of a byte buffer a [const char *] reader sees;
    - the slice of the Lua C API the two files use, as a state-and-error
      monad over an explicit Lua state (stack, tables, userdata, registry);
    - the two native libraries as interfaces (records of functions), since
      their code is not part of the bindings.

    Left out: memory errors of the host (the spec treats them as fatal).
    Neither file has a handler for what a library raises: a failure of the
    dictionary-loading collaborator, which the spec describes, leaves the
    function it happens in ([Spell.loading]). *)

From Stdlib Require Import ZArith String Ascii List Lia.
From stdpp Require Import base option list gmap strings pretty.

Set Default Proof Using "Type".

(** ** C strings *)

Module CStr.

Definition is_nul (c : ascii) : bool := Ascii.eqb c Ascii.zero.

(** [strlen]-style reading: the bytes in front of the first NUL. *)
Fixpoint until_nul (s : string) : string :=
  match s with
  | EmptyString => EmptyString
  | String c rest => if is_nul c then EmptyString else String c (until_nul rest)
  end.

Fixpoint nul_free (s : string) : bool :=
  match s with
  | EmptyString => true
  | String c rest => negb (is_nul c) && nul_free rest
  end.

Lemma until_nul_nul_free s : nul_free (until_nul s) = true.
Proof.
  induction s as [|c rest IH]; simpl; [reflexivity|].
  destruct (is_nul c) eqn:E; simpl; [reflexivity|].
  rewrite E. exact IH.
Qed.

(** What a [const char *] denotes: a byte string without NUL. *)
Record cstring := CString {
  chars : string;
  chars_nul_free : nul_free chars = true
}.

(** Reading a buffer through a [const char *]: [std::string::c_str()]
    handed to a C reader, or the pointer [lua_tolstring] returns when the
    length is not asked for. *)
Definition c_str (s : string) : cstring :=
  {| chars := until_nul s; chars_nul_free := until_nul_nul_free s |}.

End CStr.
Import CStr.

(** ** Lua values and the Lua state *)

(** The C functions the two modules register with the host. *)
Inductive lua_CFunction :=
| F_diff | F_spell | F_ls_adddic | F_ls_spell | F_ls_suggest | F_ls_addword.

Global Instance lua_CFunction_eq_dec : EqDecision lua_CFunction.
Proof. solve_decision. Defined.

(** Lua values.  Numbers are restricted to integral values, which is all the
    bridges produce; tables and full userdata are references into the state.
    Light userdata, threads and Lua functions are left out: no function of
    the two files makes or accepts one. *)
Inductive TValue :=
| TNil
| TBoolean (b : bool)
| TNumber (n : Z)
| TString (s : string)
| TTable (t : nat)
| TFunction (f : lua_CFunction)
| TUserdata (u : nat).

Global Instance TValue_eq_dec : EqDecision TValue.
Proof. solve_decision. Defined.

(** A table: the integer keys written with [lua_rawseti] and the string keys
    written with [lua_setfield]. *)
Record Table := mkTable {
  array : gmap Z TValue;
  hash : gmap string TValue
}.

(** A full userdata block the size of one pointer: the pointer stored in it
    ([None] until it is written) and its metatable. *)
Record Udata := mkUdata {
  payload : option nat;
  metatable : option nat
}.

(** What leaves a C function other than its return: the error of
    [luaL_typeerror], with the argument and the expected type, and the
    error of the dictionary-loading collaborator. *)
Inductive lua_error :=
| bad_argument (arg : Z) (expected : string)
| LoadError.

(** Calls into the native libraries, recorded in the order they happen. *)
Inductive native_call :=
| call_diff_match_patch     (* the constructor of the engine object *)
| call_diff_main (text1 text2 : string) (checklines : bool)
| call_diff_cleanupSemantic
| call_Hunspell (affpath dpath : cstring) (key : option cstring)
| call_add_dic (hs : nat) (dpath : cstring) (key : option cstring)
| call_spell (hs : nat) (word : cstring)
| call_suggest (hs : nat) (word : cstring)
| call_free_list (hs : nat) (n : nat)
| call_add (hs : nat) (word : cstring)
| call_delete (hs : nat).   (* [delete hs]; no function of the two files makes it *)

Section LuaState.

(** The type of native objects the userdata blocks point to. *)
Context {Obj : Type}.

Record lua_State := mkState {
  stack : list TValue;            (* the running C function's frame, bottom first *)
  tables : list Table;
  udata : list Udata;
  registry : gmap string TValue;
  natives : list Obj;             (* objects created with [new] *)
  calls : list native_call
}.

Definition set_stack (f : list TValue → list TValue) (L : lua_State) :=
  mkState (f (stack L)) (tables L) (udata L) (registry L) (natives L) (calls L).
Definition set_tables (f : list Table → list Table) (L : lua_State) :=
  mkState (stack L) (f (tables L)) (udata L) (registry L) (natives L) (calls L).
Definition set_udata (f : list Udata → list Udata) (L : lua_State) :=
  mkState (stack L) (tables L) (f (udata L)) (registry L) (natives L) (calls L).
Definition set_registry (f : gmap string TValue → gmap string TValue) (L : lua_State) :=
  mkState (stack L) (tables L) (udata L) (f (registry L)) (natives L) (calls L).
Definition set_natives (f : list Obj → list Obj) (L : lua_State) :=
  mkState (stack L) (tables L) (udata L) (registry L) (f (natives L)) (calls L).
Definition set_calls (f : list native_call → list native_call) (L : lua_State) :=
  mkState (stack L) (tables L) (udata L) (registry L) (natives L) (f (calls L)).

(** *** The monad of C functions

    A C function runs on a state and either finishes, raises a Lua error
    (a [longjmp] out of the function: what was done before stays done), or
    leaves the defined behaviour of C and of the Lua API. *)
Inductive outcome (A : Type) :=
| Done (a : A) (L : lua_State)
| Raise (e : lua_error) (L : lua_State)
| Undefined.
Global Arguments Done {A} a L.
Global Arguments Raise {A} e L.
Global Arguments Undefined {A}.

Definition lua (A : Type) : Type := lua_State → outcome A.

Global Instance lua_ret : MRet lua := λ A a L, Done a L.
Global Instance lua_bind : MBind lua := λ A B k m L,
  match m L with
  | Done a L' => k a L'
  | Raise e L' => Raise e L'
  | Undefined => Undefined
  end.

Definition modify (f : lua_State → lua_State) : lua unit := λ L, Done tt (f L).
Definition raise {A} (e : lua_error) : lua A := λ L, Raise e L.
Definition undefined {A} : lua A := λ _, Undefined.
Definition defined {A} (o : option A) : lua A :=
  match o with Some a => mret a | None => undefined end.

(** *** Stack indices *)

Definition lua_gettop (L : lua_State) : Z := Z.of_nat (length (stack L)).

Definition lua_absindex (L : lua_State) (idx : Z) : Z :=
  if (0 <? idx)%Z then idx else (lua_gettop L + idx + 1)%Z.

(** [None] is [LUA_TNONE]: the index names no slot of the frame. *)
Definition index2value (L : lua_State) (idx : Z) : option TValue :=
  let i := lua_absindex L idx in
  if (1 <=? i)%Z then stack L !! Z.to_nat (i - 1) else None.

Definition push (v : TValue) : lua unit := modify (set_stack (λ s, s ++ [v])).

Definition pop : lua TValue := λ L,
  match last (stack L) with
  | Some v => Done v (set_stack (λ s, take (length s - 1) s) L)
  | None => Undefined
  end.

(** *** Pushing values *)

Definition lua_pushnumber (n : Z) : lua unit := push (TNumber n).
Definition lua_pushboolean (b : Z) : lua unit := push (TBoolean (negb (b =? 0)%Z)).
Definition lua_pushstring (s : cstring) : lua unit := push (TString (chars s)).
Definition lua_pushcfunction (f : lua_CFunction) : lua unit := push (TFunction f).
Definition lua_pushvalue (idx : Z) : lua unit :=
  v ← (λ L, defined (index2value L idx) L); push v.

(** *** Tables *)

Definition empty_table : Table := mkTable ∅ ∅.

Definition lua_createtable (narr nrec : Z) : lua unit := λ L,
  Done tt (set_stack (λ s, s ++ [TTable (length (tables L))])
            (set_tables (λ ts, ts ++ [empty_table]) L)).

Definition lua_newtable : lua unit := lua_createtable 0 0.

(** Storing nil removes the key. *)
Definition store {K} `{Countable K} (k : K) (v : TValue) (m : gmap K TValue) :=
  match v with TNil => delete k m | _ => <[k:=v]> m end.

Definition table_at (idx : Z) : lua nat := λ L,
  match index2value L idx with
  | Some (TTable t) => Done t L
  | _ => Undefined
  end.

Definition update_table (t : nat) (f : Table → Table) : lua unit := λ L,
  match tables L !! t with
  | Some tb => Done tt (set_tables (λ ts, <[t := f tb]> ts) L)
  | None => Undefined
  end.

(** [t[n] = v] for the table at [idx] and the value [v] on top, which is
    popped. *)
Definition lua_rawseti (idx : Z) (n : Z) : lua unit :=
  t ← table_at idx;
  v ← pop;
  update_table t (λ tb, mkTable (store n v (array tb)) (hash tb)).

(** [t[k] = v] likewise.  The tables of the two modules have no metatable,
    so the assignment is raw. *)
Definition lua_setfield (idx : Z) (k : string) : lua unit :=
  t ← table_at idx;
  v ← pop;
  update_table t (λ tb, mkTable (array tb) (store k v (hash tb))).

(** *** Strings *)

Section Strings.

(** [lua_Number2str]/[lua_Integer2str] of the host: how a number reads
    once [lua_tolstring] has converted it. *)
Variable tostringbuff : Z → string.

(** The text of a value that [lua_tolstring] accepts. *)
Definition text_of (v : TValue) : option string :=
  match v with
  | TString s => Some s
  | TNumber n => Some (tostringbuff n)
  | _ => None
  end.

(** [lua_tolstring(L, idx, NULL)]: a string as it is; a number is
    converted in its stack slot; anything else gives [NULL]. *)
Definition lua_tolstring (idx : Z) : lua (option cstring) := λ L,
  match index2value L idx with
  | Some (TString s) => Done (Some (c_str s)) L
  | Some (TNumber n) =>
      let s := tostringbuff n in
      Done (Some (c_str s))
           (set_stack (λ st, <[Z.to_nat (lua_absindex L idx - 1) := TString s]> st) L)
  | _ => Done None L
  end.

Definition luaL_checkstring (arg : Z) : lua cstring :=
  s ← lua_tolstring arg;
  match s with
  | Some s => mret s
  | None => raise (bad_argument arg "string")
  end.

Definition lua_isnoneornil (L : lua_State) (idx : Z) : bool :=
  match index2value L idx with
  | None | Some TNil => true
  | _ => false
  end.

(** [luaL_optstring(L, arg, NULL)] *)
Definition luaL_optstring (arg : Z) : lua (option cstring) := λ L,
  if lua_isnoneornil L arg then Done None L
  else (s ← luaL_checkstring arg; mret (Some s)) L.

End Strings.

(** *** Userdata and metatables *)

Definition lua_newuserdata : lua nat := λ L,
  Done (length (udata L))
       (set_stack (λ s, s ++ [TUserdata (length (udata L))])
          (set_udata (λ us, us ++ [mkUdata None None]) L)).

Definition update_udata (u : nat) (f : Udata → Udata) : lua unit := λ L,
  match udata L !! u with
  | Some b => Done tt (set_udata (λ us, <[u := f b]> us) L)
  | None => Undefined
  end.

(** Writing and reading the pointer stored in a block. *)
Definition poke (u : nat) (p : nat) : lua unit :=
  update_udata u (λ b, mkUdata (Some p) (metatable b)).

Definition peek (u : nat) : lua (option nat) := λ L,
  match udata L !! u with
  | Some b => Done (payload b) L
  | None => Undefined
  end.

(** [luaL_getmetatable]: the registry entry, nil when there is none. *)
Definition luaL_getmetatable (tname : string) : lua unit := λ L,
  push (default TNil (registry L !! tname)) L.

(** [lua_setmetatable(L, -2)] on a userdata: a table on top becomes its
    metatable, nil clears it. *)
Definition lua_setmetatable : lua unit :=
  mt ← pop;
  obj ← (λ L, defined (index2value L (-1)) L);
  match obj, mt with
  | TUserdata u, TTable m => update_udata u (λ b, mkUdata (payload b) (Some m))
  | TUserdata u, TNil => update_udata u (λ b, mkUdata (payload b) None)
  | _, _ => undefined
  end.

Definition luaL_setmetatable (tname : string) : lua unit :=
  luaL_getmetatable tname;; lua_setmetatable.

(** [luaL_newmetatable]: leaves the registry entry on the stack when the
    name is taken and returns 0; otherwise creates the table, names it,
    registers it and returns 1. *)
Definition luaL_newmetatable (tname : string) : lua Z := λ L,
  match registry L !! tname with
  | Some v => (push v;; mret 0%Z) L
  | None =>
      (lua_createtable 0 2;;
       push (TString tname);; lua_setfield (-2) "__name";;
       t ← table_at (-1);
       modify (set_registry (λ r, <[tname := TTable t]> r));;
       mret 1%Z) L
  end.

(** [luaL_setfuncs(L, l, 0)]: each function of the list into the table on
    top, under its name. *)
Fixpoint luaL_setfuncs (l : list (string * lua_CFunction)) : lua unit :=
  match l with
  | [] => mret tt
  | (name, f) :: l' =>
      lua_pushcfunction f;; lua_setfield (-2) name;; luaL_setfuncs l'
  end.

(** [luaL_testudata]: the block, when the value is a userdata whose
    metatable is the one registered under [tname]. *)
Definition luaL_testudata (L : lua_State) (ud : Z) (tname : string) : option nat :=
  match index2value L ud with
  | Some (TUserdata u) =>
      match udata L !! u with
      | Some b =>
          match metatable b, registry L !! tname with
          | Some m, Some (TTable m') => if decide (m = m') then Some u else None
          | _, _ => None
          end
      | None => None
      end
  | _ => None
  end.

Definition luaL_checkudata (ud : Z) (tname : string) : lua nat := λ L,
  match luaL_testudata L ud tname with
  | Some u => Done u L
  | None => Raise (bad_argument ud tname) L
  end.

(** *** Native objects and the call trace *)

Definition native_call_log (c : native_call) : lua unit :=
  modify (set_calls (λ cs, cs ++ [c])).

(** [new]: the object is placed at a fresh address. *)
Definition new (o : Obj) : lua nat := λ L,
  Done (length (natives L)) (set_natives (λ os, os ++ [o]) L).

(** Following a pointer read from a block: the address and the object
    there.  A block that was never written holds no address. *)
Definition deref (hs : option nat) : lua (nat * Obj) := λ L,
  match hs with
  | Some p => defined (pair p <$> natives L !! p) L
  | None => Undefined
  end.

Definition assign (p : nat) (o : Obj) : lua unit := λ L,
  match natives L !! p with
  | Some _ => Done tt (set_natives (λ os, <[p := o]> os) L)
  | None => Undefined
  end.

(** *** Calling a C function from the host

    The function runs on a frame that holds the arguments and returns the
    number of results, which are the topmost values of the frame.  The
    frame is gone afterwards. *)
Definition call (f : lua Z) (args : list TValue) : lua (list TValue) := λ L,
  match f (set_stack (λ _, args) L) with
  | Done n L' =>
      Done (drop (length (stack L') - Z.to_nat n) (stack L'))
           (set_stack (λ _, []) L')
  | Raise e L' => Raise e (set_stack (λ _, []) L')
  | Undefined => Undefined
  end.

End LuaState.

Global Arguments lua_State : clear implicits.
Global Arguments outcome : clear implicits.
Global Arguments lua : clear implicits.

(** ** The diff module, [file_diff/ldiff.cxx] *)

Module Diff.

Inductive Operation := DELETE | INSERT | EQUAL.

Global Instance Operation_eq_dec : EqDecision Operation.
Proof. solve_decision. Defined.

Record Diff := mkDiff { operation : Operation; text : string }.

Definition Diffs := list Diff.

(** The two entry points of [diff_match_patch<string>] that the bridge
    calls.  [diff_cleanupSemantic] rewrites the list it is given. *)
Record diff_match_patch := {
  diff_main : string → string → bool → Diffs;
  diff_cleanupSemantic : Diffs → Diffs
}.

(** Modelled from the spec: the numeric values of [enum Operation], which
    [diff_match_patch.h] declares and which is not among the sources.  The
    spec fixes DELETE = -1, INSERT = +1, EQUAL = 0. *)
Definition Operation_value (op : Operation) : Z :=
  match op with
  | DELETE => -1
  | INSERT => 1
  | EQUAL => 0
  end.

Section Bridge.

Context {Obj : Type}.
Variable tostringbuff : Z → string.
Variable dmp : diff_match_patch.

(** The [for] loop over the list, [len] being the next free index.  The C
    [int] is an unbounded integer here: it stays an [int] for every script
    of fewer than 2^30 operations. *)
Fixpoint diff_loop (diffs : Diffs) (len : Z) : lua Obj unit :=
  match diffs with
  | [] => mret tt
  | d :: rest =>
      lua_pushnumber (Operation_value (operation d));;
      lua_rawseti (-2) len;;
      lua_pushstring (c_str (text d));;
      lua_rawseti (-2) (len + 1);;
      diff_loop rest (len + 2)
  end.

(** [diff()] Lua function.  The declaration of [dmp] runs the constructor
    of the engine object before any argument is read; the object it makes
    is the variable [dmp] here. *)
Definition diff : lua Obj Z :=
  native_call_log call_diff_match_patch;;
  text1 ← luaL_checkstring tostringbuff 1;
  text2 ← luaL_checkstring tostringbuff 2;
  native_call_log (call_diff_main (chars text1) (chars text2) false);;
  let diffs := diff_main dmp (chars text1) (chars text2) false in
  native_call_log call_diff_cleanupSemantic;;
  let diffs := diff_cleanupSemantic dmp diffs in
  lua_newtable;;
  diff_loop diffs 1;;
  mret 1%Z.

Definition luaopen_diff : lua Obj Z :=
  lua_pushcfunction F_diff;; mret 1%Z.

(** Platform-specific Lua library entry points. *)
Definition luaopen_file_diff_diff : lua Obj Z := luaopen_diff.
Definition luaopen_file_diff_diff64 : lua Obj Z := luaopen_diff.
Definition luaopen_file_diff_diffosx : lua Obj Z := luaopen_diff.

End Bridge.

(** *** What the bridge is measured against *)

(** The text an edit script stands for once the operations of one kind are
    left out: the library's [diff_text1] leaves out the insertions, its
    [diff_text2] the deletions. *)
Definition kept (skip : Operation) (ds : Diffs) : string :=
  foldr (λ d acc, if decide (operation d = skip) then acc else text d +:+ acc)
        EmptyString ds.

Definition diff_text1 : Diffs → string := kept INSERT.
Definition diff_text2 : Diffs → string := kept DELETE.

(** Modelled from the spec: the contract of the diff engine, whose code
    ([diff_match_patch.h]) is not among the sources.  Spec 4.1: the script
    the engine returns stands for the two texts it was given, and the
    cleanup pass keeps what a script stands for. *)
Record reconstructs (dmp : diff_match_patch) : Prop := {
  main_text1 a b c : diff_text1 (diff_main dmp a b c) = a;
  main_text2 a b c : diff_text2 (diff_main dmp a b c) = b;
  cleanup_text1 ds : diff_text1 (diff_cleanupSemantic dmp ds) = diff_text1 ds;
  cleanup_text2 ds : diff_text2 (diff_cleanupSemantic dmp ds) = diff_text2 ds
}.

(** The script the bridge obtains for two Lua strings. *)
Definition script (dmp : diff_match_patch) (A B : string) : Diffs :=
  diff_cleanupSemantic dmp (diff_main dmp (until_nul A) (until_nul B) false).

(** The two Lua values one operation is marshalled to, and the flat
    sequence of a script. *)
Definition marshal (d : Diff) : list TValue :=
  [TNumber (Operation_value (operation d)); TString (chars (c_str (text d)))].

Definition flat (ds : Diffs) : list TValue := ds ≫= marshal.

(** A consumer's reading of a flat sequence: the texts, in order, of the
    pairs whose kind is not [skip]. *)
Fixpoint joined (skip : Operation) (vs : list TValue) : string :=
  match vs with
  | TNumber k :: TString t :: rest =>
      (if (k =? Operation_value skip)%Z then EmptyString else t) +:+ joined skip rest
  | _ => EmptyString
  end.

(** [diff(A, B)] returns one table, a new one, that holds exactly the
    sequence [vs] at the keys 1, 2, ... *)
Definition returns_sequence (tostringbuff : Z → string)
    (dmp : diff_match_patch) (A B : string) (vs : list TValue) : Prop :=
  ∀ (Obj : Type) (L : lua_State Obj), ∃ t L',
    call (diff tostringbuff dmp) [TString A; TString B] L = Done [TTable t] L'
    ∧ tables L !! t = None
    ∧ tables L' !! t = Some (mkTable (map_seqZ 1 vs) ∅).

(** The reconstruction property as the spec words it, for one pair. *)
Definition reconstruction (tostringbuff : Z → string)
    (dmp : diff_match_patch) (A B : string) : Prop :=
  ∃ vs, returns_sequence tostringbuff dmp A B vs
        ∧ joined INSERT vs = A ∧ joined DELETE vs = B.

(** The flat encoding of a script in a table: nothing but the keys
    1 .. 2N, operation [i] (counted from 0) at the keys 2i+1 and 2i+2. *)
Definition flat_encoding (ops : Diffs) (tb : Table) : Prop :=
  hash tb = ∅
  ∧ (∀ j : Z, is_Some (array tb !! j) ↔ (1 ≤ j ≤ 2 * Z.of_nat (length ops))%Z)
  ∧ ∀ (i : nat) (d : Diff), ops !! i = Some d →
      array tb !! (2 * Z.of_nat i + 1)%Z
        = Some (TNumber (Operation_value (operation d)))
      ∧ array tb !! (2 * Z.of_nat i + 2)%Z = Some (TString (text d)).

(** The identity property as the spec words it, for one string. *)
Definition identity (tostringbuff : Z → string)
    (dmp : diff_match_patch) (A : string) : Prop :=
  returns_sequence tostringbuff dmp A A
    [TNumber (Operation_value EQUAL); TString A].

(** Modelled from the spec: the part of the engine's contract that spec 8
    calls diff identity, the engine's code not being among the sources.
    The script for the comparison of a text with itself, after the cleanup
    pass, is the single EQUAL operation with that text.  The contract is
    asked for non-empty texts only: what an engine answers for two empty
    texts is left to it, and [empty_comparison] below names that answer. *)
Definition collapses_self_comparison (dmp : diff_match_patch) : Prop :=
  ∀ a, a ≠ EmptyString →
       diff_cleanupSemantic dmp (diff_main dmp a a false) = [mkDiff EQUAL a].

(** The engine's script for two empty texts. *)
Definition empty_comparison (dmp : diff_match_patch) : Diffs :=
  diff_cleanupSemantic dmp (diff_main dmp EmptyString EmptyString false).

End Diff.

(** ** The spellcheck module, [spellcheck/lspell.cxx] *)

Module Spell.

(** The part of [class Hunspell] the bridge uses, as [hunspell.hxx] declares
    it.  An object is a value of type [Hunspell]; a method that changes the
    object returns the new one next to its [int] result.  [suggest] returns
    the list it stores through its first argument, whose length is its
    [int] result.  The fields say what a call answers when it returns;
    that the constructor and [add_dic] can fail instead is the matter of
    [loading] below. *)
Record Hunspell_class := {
  Hunspell : Type;
  hs_new : cstring → cstring → option cstring → Hunspell;
  hs_add_dic : Hunspell → cstring → option cstring → Hunspell * Z;
  hs_spell : Hunspell → cstring → Z;
  hs_suggest : Hunspell → cstring → list cstring;
  hs_add : Hunspell → cstring → Hunspell * Z
}.

Definition lib : list (string * lua_CFunction) :=
  [("add_dic", F_ls_adddic); ("spell", F_ls_spell);
   ("suggest", F_ls_suggest); ("add_word", F_ls_addword)].

Section Bridge.

Variable tostringbuff : Z → string.
Variable H : Hunspell_class.

Local Abbreviation lua := (lua (Hunspell H)).

(** The first statement of the four methods: the pointer stored in the
    checked block. *)
Definition checked_Hunspell : lua (option nat) :=
  u ← luaL_checkudata 1 "ta_spell"; peek u.

(** [spellchecker:add_dic()] Lua function.  C++ leaves open the order in
    which the two arguments of the native call are read; both are read
    before the call either way.  Here the path is read first;
    [ls_adddic_key_first] below is the function with the other order, and
    [ls_adddic_loading] the one with a native call that can fail. *)
Definition ls_adddic : lua Z :=
  hs ← checked_Hunspell;
  dpath ← luaL_checkstring tostringbuff 2;
  key ← luaL_optstring tostringbuff 3;
  '(p, o) ← deref hs;
  native_call_log (call_add_dic p dpath key);;
  assign p (hs_add_dic H o dpath key).1;;
  mret 0%Z.

(** [spellchecker:add_dic()] with the arguments of the native call read
    right to left: the key first, then the path. *)
Definition ls_adddic_key_first : lua Z :=
  hs ← checked_Hunspell;
  key ← luaL_optstring tostringbuff 3;
  dpath ← luaL_checkstring tostringbuff 2;
  '(p, o) ← deref hs;
  native_call_log (call_add_dic p dpath key);;
  assign p (hs_add_dic H o dpath key).1;;
  mret 0%Z.

(** [spellchecker:spell()] Lua function. *)
Definition ls_spell : lua Z :=
  hs ← checked_Hunspell;
  word ← luaL_checkstring tostringbuff 2;
  '(p, o) ← deref hs;
  native_call_log (call_spell p word);;
  lua_pushboolean (hs_spell H o word);;
  mret 1%Z.

(** The [for] loop over [slst], [i] being the C index of the head. *)
Fixpoint suggest_loop (slst : list cstring) (i : Z) : lua unit :=
  match slst with
  | [] => mret tt
  | s :: rest =>
      lua_pushstring s;; lua_rawseti (-2) (i + 1);; suggest_loop rest (i + 1)
  end.

(** [spellchecker:suggest()] Lua function. *)
Definition ls_suggest : lua Z :=
  hs ← checked_Hunspell;
  word ← luaL_checkstring tostringbuff 2;
  '(p, o) ← deref hs;
  native_call_log (call_suggest p word);;
  let slst := hs_suggest H o word in
  let n := length slst in
  lua_createtable (Z.of_nat n) 0;;
  suggest_loop slst 0;;
  native_call_log (call_free_list p n);;
  mret 1%Z.

(** [spellchecker:add_word()] Lua function. *)
Definition ls_addword : lua Z :=
  hs ← checked_Hunspell;
  word ← luaL_checkstring tostringbuff 2;
  '(p, o) ← deref hs;
  native_call_log (call_add p word);;
  assign p (hs_add H o word).1;;
  mret 0%Z.

(** [spell()] Lua function, with a constructor that returns;
    [spell_loading] below is the function with one that can fail. *)
Definition spell : lua Z :=
  aff ← luaL_checkstring tostringbuff 1;
  dic ← luaL_checkstring tostringbuff 2;
  key ← luaL_optstring tostringbuff 3;
  native_call_log (call_Hunspell aff dic key);;
  hs ← new (hs_new H aff dic key);
  u ← lua_newuserdata;
  poke u hs;;
  luaL_setmetatable "ta_spell";;
  mret 1%Z.

(** Modelled from the spec: the failures of the dictionary-loading
    collaborator, whose code ([hunspell.hxx] and the library behind it) is
    not among the sources.  Spec 4.2 and 7: a LoadError is raised when an
    affix or dictionary file is unreadable, malformed or not to be unlocked
    with the given key; it originates in the collaborator, at construction
    and in [add_dic] under the same conditions, and reaches the host
    unchanged.  [unloadable path key] tells that the file at [path] is such
    a file for [key]. *)
Definition loading : Type := cstring → option cstring → bool.

(** A native call that loads the files at [paths]: it raises when one of
    them cannot be loaded.  Neither function has a handler, so what the
    call raises leaves the function there. *)
Definition loads (unloadable : loading) (paths : list cstring)
    (key : option cstring) : lua unit :=
  if existsb (λ path, unloadable path key) paths then raise LoadError
  else mret tt.

(** [spell()] with a constructor that can fail. *)
Definition spell_loading (unloadable : loading) : lua Z :=
  aff ← luaL_checkstring tostringbuff 1;
  dic ← luaL_checkstring tostringbuff 2;
  key ← luaL_optstring tostringbuff 3;
  native_call_log (call_Hunspell aff dic key);;
  loads unloadable [aff; dic] key;;
  hs ← new (hs_new H aff dic key);
  u ← lua_newuserdata;
  poke u hs;;
  luaL_setmetatable "ta_spell";;
  mret 1%Z.

(** [spellchecker:add_dic()] with an [add_dic] that can fail. *)
Definition ls_adddic_loading (unloadable : loading) : lua Z :=
  hs ← checked_Hunspell;
  dpath ← luaL_checkstring tostringbuff 2;
  key ← luaL_optstring tostringbuff 3;
  '(p, o) ← deref hs;
  native_call_log (call_add_dic p dpath key);;
  loads unloadable [dpath] key;;
  assign p (hs_add_dic H o dpath key).1;;
  mret 0%Z.

Definition luaopen_spell : lua Z :=
  luaL_newmetatable "ta_spell";;
  luaL_setfuncs lib;;
  lua_pushvalue (-1);; lua_setfield (-2) "__index";;
  lua_pushcfunction F_spell;; mret 1%Z.

(** Platform-specific Lua library entry points. *)
Definition luaopen_spellcheck_spell : lua Z := luaopen_spell.
Definition luaopen_spellcheck_spell64 : lua Z := luaopen_spell.
Definition luaopen_spellcheck_spellosx : lua Z := luaopen_spell.

(** The macro [l_setcfunction(l, n, name, f)]: the function is pushed, so a
    relative index [n] is moved down by one for [lua_setfield]. *)
Definition l_setcfunction (n : Z) (name : string) (f : lua_CFunction) : lua unit :=
  lua_pushcfunction f;;
  lua_setfield (if (0 <? n)%Z then n else (n - 1)%Z) name.

End Bridge.

(** *** What the bridge is measured against *)

(** The fields of the metatable [luaopen_spell] builds, for a table that
    is the [t]-th of the state. *)
Definition with_funcs (l : list (string * lua_CFunction)) (h : gmap string TValue) :
    gmap string TValue :=
  foldl (λ h nf, <[nf.1 := TFunction nf.2]> h) h l.

Definition ta_spell_methods (t : nat) : gmap string TValue :=
  <["__index" := TTable t]>
    (with_funcs lib (<["__name" := TString "ta_spell"]> ∅)).

Section Measures.

Variable tostringbuff : Z → string.
Variable H : Hunspell_class.

Local Abbreviation State := (lua_State (Hunspell H)).

(** The argument is present and is text to the host: a string, or a number,
    which [lua_tolstring] converts. *)
Definition is_text (a : option TValue) : Prop :=
  ∃ v w, a = Some v ∧ text_of tostringbuff v = Some w.

(** The argument is present and is a string. *)
Definition is_string (a : option TValue) : Prop := ∃ w, a = Some (TString w).

(** The optional third argument: absent or nil, or text. *)
Definition opt_text_of (a : option TValue) : option (option string) :=
  match a with
  | None | Some TNil => Some None
  | Some v => Some <$> text_of tostringbuff v
  end.

(** The argument is a userdata of the registered type. *)
Definition is_handle {Obj} (L : lua_State Obj) (a : option TValue) : Prop :=
  ∃ u b m, a = Some (TUserdata u) ∧ udata L !! u = Some b
           ∧ metatable b = Some m ∧ registry L !! "ta_spell" = Some (TTable m).

(** [u] is a handle of [L] on the object [o] at the address [p]. *)
Definition handle (L : State) (u p : nat) (o : Hunspell H) : Prop :=
  ∃ m, udata L !! u = Some (mkUdata (Some p) (Some m))
       ∧ registry L !! "ta_spell" = Some (TTable m)
       ∧ natives L !! p = Some o.

(** The call raises an argument error and no native call has been made. *)
Definition rejects {Obj} (f : lua Obj Z) (args : list TValue) (L : lua_State Obj) : Prop :=
  ∃ arg tname L', call f args L = Raise (bad_argument arg tname) L'
                  ∧ calls L' = calls L ∧ natives L' = natives L.

(** The call raises an argument error after the native steps [made], and no
    other native call has been made by then. *)
Definition rejects_after {Obj} (made : list native_call) (f : lua Obj Z)
    (args : list TValue) (L : lua_State Obj) : Prop :=
  ∃ arg tname L', call f args L = Raise (bad_argument arg tname) L'
                  ∧ calls L' = calls L ++ made ∧ natives L' = natives L.

(** [handle:spell(w)] answers [b]. *)
Definition spells (L : State) (u : nat) (w : string) (b : bool) : Prop :=
  ∃ L', call (ls_spell tostringbuff H) [TUserdata u; TString w] L
        = Done [TBoolean b] L'.

(** A table that holds exactly the sequence [vs] at the keys 1 .. n. *)
Definition holds_sequence (vs : list TValue) (tb : Table) : Prop :=
  hash tb = ∅
  ∧ (∀ j : Z, is_Some (array tb !! j) ↔ (1 ≤ j ≤ Z.of_nat (length vs))%Z)
  ∧ ∀ (i : nat) (v : TValue), vs !! i = Some v →
      array tb !! (Z.of_nat i + 1)%Z = Some v.

(** How often the object at [p] has been destroyed. *)
Definition is_delete (p : nat) (c : native_call) : bool :=
  match c with
  | call_delete q => Nat.eqb p q
  | _ => false
  end.

Definition releases {Obj} (L : lua_State Obj) (p : nat) : nat :=
  length (List.filter (is_delete p) (calls L)).

(** Vocabulary additions through the handle [u], each with the arguments
    that follow the handle.  The host goes on after an error. *)
Inductive addition :=
| Add_word (args : list TValue)
| Add_dic (args : list TValue).

Definition run_addition (u : nat) (a : addition) : lua (Hunspell H) (list TValue) :=
  match a with
  | Add_word args => call (ls_addword tostringbuff H) (TUserdata u :: args)
  | Add_dic args => call (ls_adddic tostringbuff H) (TUserdata u :: args)
  end.

Fixpoint after_additions (u : nat) (l : list addition) (L : State) : option State :=
  match l with
  | [] => Some L
  | a :: rest =>
      match run_addition u a L with
      | Done _ L' | Raise _ L' => after_additions u rest L'
      | Undefined => None
      end
  end.

(** Modelled from the spec: the contract of the spell checker, whose code
    (Hunspell) is not among the sources.  Spec 4.2 and 8: a word that was
    added is recognized by the checks that follow. *)
Definition add_makes_known : Prop :=
  ∀ o w, hs_spell H (hs_add H o w).1 w ≠ 0%Z.

(** Modelled from the spec: the monotonicity the spec (8) states of the
    spell checker, for its two additive methods. *)
Definition additions_keep_words : Prop :=
  (∀ o v w, hs_spell H o w ≠ 0%Z → hs_spell H (hs_add H o v).1 w ≠ 0%Z)
  ∧ (∀ o d k w, hs_spell H o w ≠ 0%Z → hs_spell H (hs_add_dic H o d k).1 w ≠ 0%Z).

End Measures.

End Spell.

(** ** The host's side: calling registered functions, collecting userdata *)

Module Host.

Import Diff Spell.

Section Host.

Variable tostringbuff : Z → string.
Variable dmp : diff_match_patch.
Variable H : Hunspell_class.

Local Abbreviation lua := (lua (Hunspell H)).

Definition cfunction (f : lua_CFunction) : lua Z :=
  match f with
  | F_diff => diff tostringbuff dmp
  | F_spell => spell tostringbuff H
  | F_ls_adddic => ls_adddic tostringbuff H
  | F_ls_spell => ls_spell tostringbuff H
  | F_ls_suggest => ls_suggest tostringbuff H
  | F_ls_addword => ls_addword tostringbuff H
  end.

(** The [__gc] metamethod of a userdata block, if its metatable has one. *)
Definition finalizer (L : lua_State (Hunspell H)) (u : nat) : option TValue :=
  b ← udata L !! u;
  m ← metatable b;
  tb ← tables L !! m;
  hash tb !! "__gc".

(** Collection of an unreachable userdata block: the host calls the
    finalizer on it when there is one, then frees the block and with it
    the pointer it holds.  The host frees nothing else. *)
Definition collect (u : nat) : lua unit := λ L,
  match finalizer L u with
  | Some (TFunction f) =>
      (call (cfunction f) [TUserdata u];;
       update_udata u (λ _, mkUdata None None)) L
  | _ => update_udata u (λ _, mkUdata None None) L
  end.

(** What [h.name] gives the host for a userdata [h]: with a table under
    [__index] in the metatable, the raw field of that table.  (The tables
    of the two modules have no metatable of their own.) *)
Definition index_udata (L : lua_State (Hunspell H)) (u : nat) (name : string) :
    option TValue :=
  b ← udata L !! u;
  m ← metatable b;
  mt ← tables L !! m;
  match hash mt !! "__index" with
  | Some (TTable t) => tb ← tables L !! t; hash tb !! name
  | _ => None
  end.

(** A state in which the spellcheck module is open and every userdata of
    the registered type holds the address of an object. *)
Definition sound (L : lua_State (Hunspell H)) : Prop :=
  (∃ m, registry L !! "ta_spell" = Some (TTable m))
  ∧ ∀ u b m, udata L !! u = Some b → metatable b = Some m →
      registry L !! "ta_spell" = Some (TTable m) →
      ∃ p o, payload b = Some p ∧ natives L !! p = Some o.

(** A run of calls to registered functions, each with its arguments.  The
    host goes on after an error; there is no state after a call that left
    the defined behaviour. *)
Fixpoint run_calls (l : list (lua_CFunction * list TValue))
    (L : lua_State (Hunspell H)) : option (lua_State (Hunspell H)) :=
  match l with
  | [] => Some L
  | (f, args) :: rest =>
      match call (cfunction f) args L with
      | Done _ L' | Raise _ L' => run_calls rest L'
      | Undefined => None
      end
  end.

End Host.

End Host.

(** ** Two small instances of the native interfaces

    They stand in for the libraries when a statement is run on concrete
    input.  They are not the libraries' algorithms. *)

Module PrefixDiff.

Import Diff.

(** The longest common prefix and what is left of either string. *)
Fixpoint split_prefix (a b : string) : string * (string * string) :=
  match a, b with
  | String x a', String y b' =>
      if Ascii.eqb x y
      then let '(p, r) := split_prefix a' b' in (String x p, r)
      else (EmptyString, (a, b))
  | _, _ => (EmptyString, (a, b))
  end.

Definition op (o : Operation) (s : string) : Diffs :=
  match s with
  | EmptyString => []
  | _ => [mkDiff o s]
  end.

(** Keep the common prefix, delete the rest of the first text, insert the
    rest of the second; operations with empty text are left out. *)
Definition prefix_diff (a b : string) (checklines : bool) : Diffs :=
  let '(p, (ra, rb)) := split_prefix a b in
  op EQUAL p ++ op DELETE ra ++ op INSERT rb.

Definition engine : diff_match_patch :=
  {| diff_main := prefix_diff; diff_cleanupSemantic := λ ds, ds |}.

End PrefixDiff.

Module WordList.

Import Spell.

(** A file system with one affix file and two dictionaries. *)
Definition files (path : string) : option (list string) :=
  if String.eqb path "en.aff" then Some []
  else if String.eqb path "en.dic" then Some ["hello"; "help"; "world"]
  else if String.eqb path "names.dic" then Some ["Ada"; "Alan"]
  else None.

Definition load (path : cstring) : option (list string) := files (chars path).

Definition member (w : string) (ws : list string) : bool :=
  existsb (String.eqb w) ws.

Definition same_initial (a b : string) : bool :=
  match a, b with
  | String x _, String y _ => Ascii.eqb x y
  | _, _ => false
  end.

(** The object is the list of known words.  Loading a file that cannot be
    read leaves the list as it is and is reported through the [int]. *)
Definition class : Hunspell_class := {|
  Hunspell := list string;
  hs_new aff dic key :=
    match load aff, load dic with
    | Some _, Some ws => ws
    | _, _ => []
    end;
  hs_add_dic ws dpath key :=
    match load dpath with
    | Some more => (ws ++ more, 0%Z)
    | None => (ws, 1%Z)
    end;
  hs_spell ws word := if member (chars word) ws then 1%Z else 0%Z;
  hs_suggest ws word :=
    if member (chars word) ws then []
    else c_str <$> filter (λ w, same_initial (chars word) w = true) ws;
  hs_add ws word := (ws ++ [chars word], 0%Z)
|}.

(** A file that is not there cannot be loaded, whatever the key. *)
Definition unloadable : loading :=
  λ path key, match load path with Some _ => false | None => true end.

(** Numbers read in decimal. *)
Definition tostringbuff (n : Z) : string := pretty n.

End WordList.

(** Inputs of the examples: a Lua string with a NUL byte in the middle, a
    state in which nothing has been created yet, the state once the
    spellcheck module is open, and then with one dictionary loaded. *)
Definition a_nul_b : string :=
  String "a"%char (String Ascii.zero (String "b"%char EmptyString)).

Definition fresh_state {Obj : Type} : lua_State Obj := mkState [] [] [] ∅ [] [].

Definition state_of {Obj A : Type} (o : outcome Obj A) : lua_State Obj :=
  match o with
  | Done _ L | Raise _ L => L
  | Undefined => fresh_state
  end.

(** The state a call ends in, finished or raised. *)
Definition ends_in {Obj A : Type} (o : outcome Obj A) (L' : lua_State Obj) : Prop :=
  match o with
  | Done _ L | Raise _ L => L = L'
  | Undefined => False
  end.

(** From [L] to [L'] the registry is the same, the userdata blocks there
    were are the same, and every address that held an object holds one. *)
Definition grows {Obj : Type} (L L' : lua_State Obj) : Prop :=
  registry L' = registry L
  ∧ (∃ more, udata L' = udata L ++ more)
  ∧ ∀ q, is_Some (natives L !! q) → is_Some (natives L' !! q).

Definition opened : lua_State (list string) :=
  state_of (call (Spell.luaopen_spell WordList.class) [] fresh_state).

Definition loaded : lua_State (list string) :=
  state_of (call (Spell.spell WordList.tostringbuff WordList.class)
                 [TString "en.aff"; TString "en.dic"] opened).

(** * Properties *)

(** ** C strings *)

Section CStrFacts.

Lemma until_nul_id s : nul_free s = true → until_nul s = s.
Proof.
  induction s as [|c rest IH]; simpl; [reflexivity|].
  destruct (is_nul c); simpl; [discriminate|].
  intros H. f_equal. auto.
Qed.

Lemma nul_free_app a b :
  nul_free (a +:+ b) = nul_free a && nul_free b.
Proof.
  induction a as [|c rest IH]; simpl; [reflexivity|].
  rewrite IH. destruct (is_nul c); reflexivity.
Qed.

(** A C string is determined by its bytes, and reading one through a
    [const char *] gives it back. *)
Lemma cstring_eq (a b : cstring) : chars a = chars b → a = b.
Proof.
  destruct a as [a Ha], b as [b Hb]; simpl. intros ->.
  f_equal. apply (proof_irrel Ha Hb).
Qed.

Lemma c_str_chars (a : cstring) : c_str (chars a) = a.
Proof. apply cstring_eq; simpl. apply until_nul_id, chars_nul_free. Qed.

End CStrFacts.

(** ** Running the API on explicit states *)

Section Stepping.

Context {Obj : Type}.
Implicit Types (L : lua_State Obj) (s pre post : list TValue).
Implicit Types (ts : list Table) (us : list Udata) (ns : list Obj).
Implicit Types (r : gmap string TValue) (cs : list native_call).

Lemma bind_Done {A B} (m : lua Obj A) (k : A → lua Obj B) L a L' :
  m L = Done a L' → (m ≫= k) L = k a L'.
Proof. unfold mbind, lua_bind. intros ->. reflexivity. Qed.

Lemma bind_Raise {A B} (m : lua Obj A) (k : A → lua Obj B) L e L' :
  m L = Raise e L' → (m ≫= k) L = Raise e L'.
Proof. unfold mbind, lua_bind. intros ->. reflexivity. Qed.

Lemma index2value_pos s ts us r ns cs (i : nat) :
  index2value (mkState s ts us r ns cs) (Z.of_nat (S i)) = s !! i.
Proof.
  unfold index2value, lua_absindex.
  replace (0 <? Z.of_nat (S i))%Z with true by (symmetry; apply Z.ltb_lt; lia).
  replace (1 <=? Z.of_nat (S i))%Z with true by (symmetry; apply Z.leb_le; lia).
  simpl stack. f_equal. lia.
Qed.

(** The slot [k] places below the top, for a negative index [-(k+1)]. *)
Lemma index2value_neg pre v post ts us r ns cs :
  index2value (mkState (pre ++ v :: post) ts us r ns cs)
              (- Z.of_nat (S (length post))) = Some v.
Proof.
  unfold index2value, lua_absindex, lua_gettop. simpl stack.
  replace (0 <? - Z.of_nat (S (length post)))%Z with false
    by (symmetry; apply Z.ltb_ge; lia).
  rewrite length_app. simpl length.
  replace (1 <=? _)%Z with true by (symmetry; apply Z.leb_le; lia).
  replace (Z.to_nat _) with (length pre) by lia.
  apply list_lookup_middle. reflexivity.
Qed.

Lemma pop_snoc pre v ts us r ns cs :
  pop (mkState (pre ++ [v]) ts us r ns cs) = Done v (mkState pre ts us r ns cs).
Proof.
  unfold pop, set_stack. simpl. rewrite last_snoc. f_equal. f_equal.
  rewrite length_app. simpl. apply take_app_length'. lia.
Qed.

Lemma lua_rawseti_top pre t v n ts tb us r ns cs :
  ts !! t = Some tb →
  lua_rawseti (-2) n (mkState (pre ++ [TTable t; v]) ts us r ns cs)
  = Done tt (mkState (pre ++ [TTable t])
               (<[t := mkTable (store n v (array tb)) (hash tb)]> ts) us r ns cs).
Proof.
  intros Ht. unfold lua_rawseti.
  erewrite bind_Done; cycle 1.
  { unfold table_at.
    rewrite (index2value_neg pre (TTable t) [v]). reflexivity. }
  erewrite bind_Done; cycle 1.
  { replace (pre ++ [TTable t; v]) with ((pre ++ [TTable t]) ++ [v])
      by (rewrite <- app_assoc; reflexivity).
    apply pop_snoc. }
  unfold update_table. simpl. rewrite Ht. reflexivity.
Qed.

Lemma lua_setfield_top pre t v k ts tb us r ns cs :
  ts !! t = Some tb →
  lua_setfield (-2) k (mkState (pre ++ [TTable t; v]) ts us r ns cs)
  = Done tt (mkState (pre ++ [TTable t])
               (<[t := mkTable (array tb) (store k v (hash tb))]> ts) us r ns cs).
Proof.
  intros Ht. unfold lua_setfield.
  erewrite bind_Done; cycle 1.
  { unfold table_at.
    rewrite (index2value_neg pre (TTable t) [v]). reflexivity. }
  erewrite bind_Done; cycle 1.
  { replace (pre ++ [TTable t; v]) with ((pre ++ [TTable t]) ++ [v])
      by (rewrite <- app_assoc; reflexivity).
    apply pop_snoc. }
  unfold update_table. simpl. rewrite Ht. reflexivity.
Qed.

Lemma insert_snoc {A} (l : list A) (x y : A) :
  <[length l := y]> (l ++ [x]) = l ++ [y].
Proof.
  replace (length l) with (length l + 0) at 1 by lia.
  rewrite insert_app_r. reflexivity.
Qed.

Lemma push_run v s ts us r ns cs :
  push v (mkState s ts us r ns cs) = Done tt (mkState (s ++ [v]) ts us r ns cs).
Proof. reflexivity. Qed.

End Stepping.

(** ** Reading arguments *)

(** One step of a sequence of calls: rewrite with the outcome of the first
    call, which [tac] establishes. *)
Ltac run tac := cbv beta iota; erewrite bind_Done; [| solve [tac]].
Ltac run_eq := run ltac:(reflexivity).

(** Normalize the fields of a state built by the setters. *)
Ltac fields :=
  unfold set_stack, set_tables, set_udata, set_registry, set_natives, set_calls;
  cbn [stack tables udata registry natives calls].

Section Checking.

Import Spell.

Context {Obj : Type}.
Variable tostringbuff : Z → string.
Implicit Types (L : lua_State Obj) (s pre post : list TValue).
Implicit Types (ts : list Table) (us : list Udata) (ns : list Obj).
Implicit Types (r : gmap string TValue) (cs : list native_call).

Lemma lua_tolstring_pos s ts us r ns cs (i : nat) :
  lua_tolstring tostringbuff (Z.of_nat (S i)) (mkState s ts us r ns cs)
  = match s !! i with
    | Some (TString w) => Done (Some (c_str w)) (mkState s ts us r ns cs)
    | Some (TNumber n) =>
        Done (Some (c_str (tostringbuff n)))
             (mkState (<[i := TString (tostringbuff n)]> s) ts us r ns cs)
    | _ => Done None (mkState s ts us r ns cs)
    end.
Proof.
  unfold lua_tolstring. rewrite index2value_pos.
  destruct (s !! i) as [[]|]; try reflexivity.
  unfold set_stack, lua_absindex. cbn [stack tables udata registry natives calls].
  replace (0 <? Z.of_nat (S i))%Z with true by (symmetry; apply Z.ltb_lt; lia).
  replace (Z.to_nat (Z.of_nat (S i) - 1)) with i by lia.
  reflexivity.
Qed.

(** A text argument is accepted; a number is left converted in its slot. *)
Lemma luaL_checkstring_text s ts us r ns cs (i : nat) v w :
  s !! i = Some v → text_of tostringbuff v = Some w →
  luaL_checkstring tostringbuff (Z.of_nat (S i)) (mkState s ts us r ns cs)
  = Done (c_str w) (mkState (<[i := TString w]> s) ts us r ns cs).
Proof.
  intros Hs Hv. unfold luaL_checkstring.
  destruct v; try discriminate Hv; injection Hv as <-.
  - run ltac:(rewrite lua_tolstring_pos, Hs; reflexivity). reflexivity.
  - run ltac:(rewrite lua_tolstring_pos, Hs; reflexivity).
    rewrite (list_insert_id _ _ _ Hs). reflexivity.
Qed.

Lemma luaL_checkstring_bad s ts us r ns cs (i : nat) :
  ¬ is_text tostringbuff (s !! i) →
  luaL_checkstring tostringbuff (Z.of_nat (S i)) (mkState s ts us r ns cs)
  = Raise (bad_argument (Z.of_nat (S i)) "string") (mkState s ts us r ns cs).
Proof.
  intros Hbad. unfold luaL_checkstring.
  assert (Hnone : lua_tolstring tostringbuff (Z.of_nat (S i)) (mkState s ts us r ns cs)
                  = Done None (mkState s ts us r ns cs)).
  { rewrite lua_tolstring_pos.
    destruct (s !! i) as [v|] eqn:Hs; [|reflexivity].
    destruct v; try reflexivity; exfalso; apply Hbad; eexists _, _;
      (split; [reflexivity|reflexivity]). }
  run ltac:(exact Hnone). reflexivity.
Qed.

Lemma luaL_optstring_run s ts us r ns cs (i : nat) key :
  opt_text_of tostringbuff (s !! i) = Some key →
  luaL_optstring tostringbuff (Z.of_nat (S i)) (mkState s ts us r ns cs)
  = Done (c_str <$> key)
         (mkState (match key with Some w => <[i := TString w]> s | None => s end)
                  ts us r ns cs).
Proof.
  intros Hk. unfold luaL_optstring, lua_isnoneornil. rewrite index2value_pos.
  destruct (s !! i) as [v|] eqn:Hs.
  - destruct v; simpl in Hk; try discriminate Hk; injection Hk as <-;
      try reflexivity.
    + run ltac:(apply (luaL_checkstring_text _ _ _ _ _ _ _ (TNumber n)); [exact Hs|reflexivity]).
      reflexivity.
    + run ltac:(apply (luaL_checkstring_text _ _ _ _ _ _ _ (TString s0)); [exact Hs|reflexivity]).
      reflexivity.
  - injection Hk as <-. reflexivity.
Qed.

Lemma luaL_checkudata_handle s ts us r ns cs u b m :
  s !! 0 = Some (TUserdata u) → us !! u = Some b → metatable b = Some m →
  r !! "ta_spell" = Some (TTable m) →
  luaL_checkudata 1 "ta_spell" (mkState s ts us r ns cs)
  = Done u (mkState s ts us r ns cs).
Proof.
  intros Hs Hu Hm Hr. unfold luaL_checkudata, luaL_testudata.
  rewrite (index2value_pos _ _ _ _ _ _ 0), Hs.
  cbn [stack tables udata registry natives calls].
  rewrite Hu, Hm, Hr. rewrite decide_True by reflexivity. reflexivity.
Qed.

Lemma luaL_checkudata_bad s ts us r ns cs :
  ¬ is_handle (mkState s ts us r ns cs) (s !! 0) →
  luaL_checkudata 1 "ta_spell" (mkState s ts us r ns cs)
  = Raise (bad_argument 1 "ta_spell") (mkState s ts us r ns cs).
Proof.
  intros Hbad. unfold luaL_checkudata, luaL_testudata.
  rewrite (index2value_pos _ _ _ _ _ _ 0).
  cbn [stack tables udata registry natives calls].
  destruct (s !! 0) as [[| | | | | |u]|] eqn:Hs; try reflexivity.
  destruct (us !! u) as [b|] eqn:Hu; [|reflexivity].
  destruct (metatable b) as [m|] eqn:Hm; [|reflexivity].
  destruct (r !! "ta_spell") as [[| | | |m'| |]|] eqn:Hr; try reflexivity.
  destruct (decide (m = m')) as [->|]; [|reflexivity].
  exfalso. apply Hbad. exists u, b, m'. repeat split; assumption.
Qed.

Lemma luaL_optstring_bad s ts us r ns cs (i : nat) :
  opt_text_of tostringbuff (s !! i) = None →
  luaL_optstring tostringbuff (Z.of_nat (S i)) (mkState s ts us r ns cs)
  = Raise (bad_argument (Z.of_nat (S i)) "string") (mkState s ts us r ns cs).
Proof.
  intros Hk. unfold luaL_optstring, lua_isnoneornil. rewrite index2value_pos.
  assert (Hbad : ¬ is_text tostringbuff (s !! i)).
  { intros (v & w & Hv & Hw). rewrite Hv in Hk.
    destruct v; simpl in Hk, Hw; discriminate. }
  destruct (s !! i) as [[]|] eqn:Hs; try discriminate Hk;
    (erewrite bind_Raise; [reflexivity|]; apply luaL_checkstring_bad;
     rewrite Hs; exact Hbad).
Qed.

Lemma is_text_dec (a : option TValue) :
  is_text tostringbuff a ∨ ¬ is_text tostringbuff a.
Proof.
  destruct a as [v|]; [|right; intros (v & w & Hv & _); discriminate].
  destruct (text_of tostringbuff v) as [w|] eqn:Hw.
  - left. exists v, w. split; [reflexivity|exact Hw].
  - right. intros (v' & w' & Hv & Hw'). injection Hv as <-. congruence.
Qed.

Lemma is_handle_dec L (a : option TValue) : is_handle L a ∨ ¬ is_handle L a.
Proof.
  destruct a as [[| | | | | |u]|];
    try (right; intros (? & ? & ? & Ha & _); discriminate).
  destruct (udata L !! u) as [b|] eqn:Hu;
    [|right; intros (u' & b & m & Ha & Hb & _); injection Ha as <-; congruence].
  destruct (metatable b) as [m|] eqn:Hm;
    [|right; intros (u' & b' & m & Ha & Hb & Hm' & _); injection Ha as <-;
      congruence].
  destruct (decide (registry L !! "ta_spell" = Some (TTable m))) as [Hr|Hr].
  - left. exists u, b, m. repeat split; assumption.
  - right. intros (u' & b' & m' & Ha & Hb & Hm' & Hr'). injection Ha as <-.
    congruence.
Qed.

End Checking.

(** ** The diff bridge *)

Section DiffFacts.

Import Diff.

Context {Obj : Type}.
Variable tostringbuff : Z → string.
Variable dmp : diff_match_patch.
Implicit Types (L : lua_State Obj) (s pre post : list TValue).
Implicit Types (ts : list Table) (us : list Udata) (ns : list Obj).
Implicit Types (r : gmap string TValue) (cs : list native_call).

Lemma luaL_checkstring_string s ts us r ns cs (i : nat) A :
  s !! i = Some (TString A) →
  luaL_checkstring tostringbuff (Z.of_nat (S i)) (mkState s ts us r ns cs)
  = Done (c_str A) (mkState s ts us r ns cs).
Proof.
  intros Hs. unfold luaL_checkstring.
  erewrite bind_Done; cycle 1.
  { unfold lua_tolstring. rewrite index2value_pos, Hs. reflexivity. }
  reflexivity.
Qed.

(** The loop appends the marshalled operations to the sequence the table
    holds already. *)
Lemma diff_loop_run ds : ∀ pre t ts h us r ns cs done,
  ts !! t = Some (mkTable (map_seqZ 1 done) h) →
  diff_loop ds (1 + Z.of_nat (length done))
    (mkState (pre ++ [TTable t]) ts us r ns cs)
  = Done tt (mkState (pre ++ [TTable t])
               (<[t := mkTable (map_seqZ 1 (done ++ flat ds)) h]> ts) us r ns cs).
Proof.
  induction ds as [|d rest IH]; intros pre t ts h us r ns cs done Ht.
  - simpl. unfold flat. simpl. rewrite app_nil_r.
    rewrite list_insert_id by exact Ht. reflexivity.
  - simpl diff_loop.
    assert (Hlen : t < length ts) by (eapply lookup_lt_Some; eauto).
    erewrite bind_Done; cycle 1.
    { unfold lua_pushnumber. apply push_run. }
    rewrite <- app_assoc. simpl app.
    erewrite bind_Done; cycle 1.
    { apply lua_rawseti_top. exact Ht. }
    erewrite bind_Done; cycle 1.
    { unfold lua_pushstring. apply push_run. }
    rewrite <- app_assoc. simpl app.
    erewrite bind_Done; cycle 1.
    { apply lua_rawseti_top. apply list_lookup_insert_eq. exact Hlen. }
    simpl array. simpl hash. unfold store.
    rewrite list_insert_insert_eq.
    set (k := TNumber (Operation_value (operation d))).
    set (x := TString (chars (c_str (text d)))).
    replace (1 + Z.of_nat (length done) + 2)%Z
      with (1 + Z.of_nat (length ((done ++ [k]) ++ [x])))%Z
      by (rewrite !length_app; simpl; lia).
    erewrite (IH pre t _ h us r ns cs ((done ++ [k]) ++ [x])); cycle 1.
    { rewrite list_lookup_insert_eq by exact Hlen.
      do 2 f_equal. rewrite !map_seqZ_snoc, length_app. simpl.
      subst k x. simpl. f_equal. lia. }
    rewrite list_insert_insert_eq.
    do 4 f_equal. unfold flat. simpl.
    rewrite <- !app_assoc. reflexivity.
Qed.

Lemma diff_run A B extra s0 ts us r ns cs :
  call (diff tostringbuff dmp) (TString A :: TString B :: extra)
       (mkState s0 ts us r ns cs)
  = Done [TTable (length ts)]
      (mkState [] (ts ++ [mkTable (map_seqZ 1 (flat (script dmp A B))) ∅]) us r ns
         (cs ++ [call_diff_match_patch;
                 call_diff_main (until_nul A) (until_nul B) false;
                 call_diff_cleanupSemantic])).
Proof.
  unfold call, diff. simpl set_stack.
  set (args := TString A :: TString B :: extra).
  erewrite bind_Done; cycle 1. { reflexivity. }
  unfold set_calls at 1. cbn [stack tables udata registry natives calls].
  erewrite bind_Done; cycle 1.
  { apply (luaL_checkstring_string _ _ _ _ _ _ 0). reflexivity. }
  erewrite bind_Done; cycle 1.
  { apply (luaL_checkstring_string _ _ _ _ _ _ 1). reflexivity. }
  clearbody args.
  erewrite bind_Done; cycle 1. { reflexivity. }
  erewrite bind_Done; cycle 1. { reflexivity. }
  erewrite bind_Done; cycle 1. { reflexivity. }
  cbn [set_calls set_tables set_stack stack tables udata registry natives calls].
  erewrite bind_Done; cycle 1.
  { apply (diff_loop_run _ args (length ts) _ ∅ _ _ _ _ []).
    apply list_lookup_middle. reflexivity. }
  unfold mret, lua_ret.
  cbn [set_calls set_tables set_stack stack tables udata registry natives calls].
  rewrite length_app. simpl length.
  rewrite drop_app_length' by lia.
  rewrite insert_snoc, <- !app_assoc. reflexivity.
Qed.

(** A script that stands for C strings has C strings for texts. *)
Lemma kept_nul_free skip ds :
  nul_free (kept skip ds) = true →
  Forall (λ d, operation d ≠ skip → nul_free (text d) = true) ds.
Proof.
  induction ds as [|d rest IH]; simpl; intros Hk; constructor.
  - intros Hop. destruct (decide (operation d = skip)); [contradiction|].
    rewrite nul_free_app in Hk. apply andb_true_iff in Hk. tauto.
  - apply IH. destruct (decide (operation d = skip)); [exact Hk|].
    rewrite nul_free_app in Hk. apply andb_true_iff in Hk. tauto.
Qed.

Lemma script_nul_free A B :
  reconstructs dmp →
  Forall (λ d, nul_free (text d) = true) (script dmp A B).
Proof.
  intros Hc.
  assert (H1 : nul_free (kept INSERT (script dmp A B)) = true).
  { unfold script. fold (diff_text1 (diff_cleanupSemantic dmp
      (diff_main dmp (until_nul A) (until_nul B) false))).
    rewrite (cleanup_text1 _ Hc), (main_text1 _ Hc).
    apply until_nul_nul_free. }
  assert (H2 : nul_free (kept DELETE (script dmp A B)) = true).
  { unfold script. fold (diff_text2 (diff_cleanupSemantic dmp
      (diff_main dmp (until_nul A) (until_nul B) false))).
    rewrite (cleanup_text2 _ Hc), (main_text2 _ Hc).
    apply until_nul_nul_free. }
  apply kept_nul_free in H1, H2.
  rewrite Forall_forall in H1, H2. apply Forall_forall. intros d Hd.
  destruct (decide (operation d = INSERT)) as [Hop|Hop].
  - apply (H2 d Hd). rewrite Hop. discriminate.
  - apply (H1 d Hd Hop).
Qed.

Lemma Operation_value_inj a b :
  (Operation_value a =? Operation_value b)%Z = bool_decide (a = b).
Proof. destruct a, b; reflexivity. Qed.

(** Reading the flat sequence back gives the text the script stands for,
    each operation's text cut at its first NUL. *)
Lemma joined_flat skip ds :
  Forall (λ d, nul_free (text d) = true) ds →
  joined skip (flat ds) = kept skip ds.
Proof.
  induction 1 as [|d rest Hd _ IH]; [reflexivity|].
  change (flat (d :: rest)) with (marshal d ++ flat rest).
  unfold marshal. simpl.
  rewrite Operation_value_inj, IH, (until_nul_id _ Hd).
  destruct (decide (operation d = skip)) as [Hop|Hop].
  - rewrite bool_decide_eq_true_2 by exact Hop. reflexivity.
  - rewrite bool_decide_eq_false_2 by exact Hop. reflexivity.
Qed.

End DiffFacts.

(** ** The prefix engine meets the engine contract *)

Section PrefixDiffFacts.

Import Diff PrefixDiff.

Lemma append_cons (x : ascii) (a b : string) :
  String x a +:+ b = String x (a +:+ b).
Proof. reflexivity. Qed.

Lemma append_nil_r (a : string) : a +:+ EmptyString = a.
Proof.
  induction a as [|c a IH]; [reflexivity|].
  rewrite append_cons. f_equal. exact IH.
Qed.

Lemma append_assoc (a b c : string) : (a +:+ b) +:+ c = a +:+ (b +:+ c).
Proof.
  induction a as [|x a IH]; [reflexivity|].
  rewrite !append_cons. f_equal. exact IH.
Qed.

Lemma split_prefix_spec a : ∀ b p ra rb,
  split_prefix a b = (p, (ra, rb)) → a = p +:+ ra ∧ b = p +:+ rb.
Proof.
  induction a as [|x a IH]; intros b p ra rb Hs.
  - simpl in Hs. injection Hs as <- <- <-. split; reflexivity.
  - destruct b as [|y b].
    + simpl in Hs. injection Hs as <- <- <-. split; reflexivity.
    + simpl in Hs. destruct (Ascii.eqb x y) eqn:Exy.
      * apply Ascii.eqb_eq in Exy as ->.
        destruct (split_prefix a b) as [p' [ra' rb']] eqn:Hab.
        injection Hs as <- <- <-.
        destruct (IH _ _ _ _ Hab) as [-> ->]. split; reflexivity.
      * injection Hs as <- <- <-. split; reflexivity.
Qed.

Lemma kept_app skip ds es : kept skip (ds ++ es) = kept skip ds +:+ kept skip es.
Proof.
  induction ds as [|d ds IH]; [reflexivity|].
  simpl. rewrite IH. destruct (decide (operation d = skip)); [reflexivity|].
  symmetry. apply append_assoc.
Qed.

Lemma kept_op skip o s :
  kept skip (op o s) = if decide (o = skip) then EmptyString else s.
Proof.
  destruct s as [|c s]; simpl.
  - destruct (decide (o = skip)); reflexivity.
  - destruct (decide (o = skip)); [reflexivity|]. apply append_nil_r.
Qed.

Lemma prefix_engine_reconstructs : reconstructs engine.
Proof.
  split; simpl; try reflexivity; intros a b c; unfold prefix_diff.
  - destruct (split_prefix a b) as [p [ra rb]] eqn:Hs.
    apply split_prefix_spec in Hs as [-> _].
    unfold diff_text1. rewrite !kept_app, !kept_op. simpl.
    rewrite append_nil_r. reflexivity.
  - destruct (split_prefix a b) as [p [ra rb]] eqn:Hs.
    apply split_prefix_spec in Hs as [_ ->].
    unfold diff_text2. rewrite !kept_app, !kept_op. reflexivity.
Qed.

Lemma split_prefix_refl a :
  split_prefix a a = (a, (EmptyString, EmptyString)).
Proof.
  induction a as [|x a IH]; [reflexivity|].
  simpl. rewrite Ascii.eqb_refl, IH. reflexivity.
Qed.

(** The stand-in answers the comparison of a non-empty text with itself by
    one EQUAL operation, and that of two empty texts by no operation. *)
Lemma prefix_engine_collapses : collapses_self_comparison engine.
Proof.
  intros a Ha. simpl. unfold prefix_diff. rewrite split_prefix_refl.
  destruct a; [contradiction|reflexivity].
Qed.

End PrefixDiffFacts.

(** ** Claims about [diff] *)

Section DiffClaims.

Import Diff.

Variable tostringbuff : Z → string.
Variable dmp : diff_match_patch.

Lemma map_seqZ_inj (xs ys : list TValue) :
  map_seqZ (M:=gmap Z TValue) 1 xs = map_seqZ 1 ys → xs = ys.
Proof.
  intros Heq. apply list_eq. intros i. apply option_eq. intros x.
  rewrite (lookup_map_seqZ_Some_inv (M:=gmap Z) 1 xs).
  rewrite (lookup_map_seqZ_Some_inv (M:=gmap Z) 1 ys).
  rewrite Heq. reflexivity.
Qed.

Lemma returns_flat A B :
  returns_sequence tostringbuff dmp A B (flat (script dmp A B)).
Proof.
  intros Obj [s0 ts us r ns cs]. eexists _, _.
  rewrite (diff_run tostringbuff dmp A B []). split; [reflexivity|].
  cbn [tables]. split.
  - apply lookup_ge_None_2. lia.
  - apply list_lookup_middle. reflexivity.
Qed.

Lemma returns_sequence_unique A B vs :
  returns_sequence tostringbuff dmp A B vs → vs = flat (script dmp A B).
Proof.
  intros Hret.
  destruct (Hret unit fresh_state) as (t & L' & Hcall & _ & Htb).
  unfold fresh_state in Hcall.
  rewrite (diff_run tostringbuff dmp A B []) in Hcall.
  injection Hcall as <- <-. cbn in Htb.
  injection Htb as Htb. symmetry. apply map_seqZ_inj. exact Htb.
Qed.

Lemma length_flat ds : length (flat ds) = 2 * length ds.
Proof.
  induction ds as [|d ds IH]; [reflexivity|].
  change (flat (d :: ds)) with (marshal d ++ flat ds).
  rewrite length_app, IH. simpl. lia.
Qed.

Lemma lookup_flat ds : ∀ (i : nat) d,
  ds !! i = Some d →
  flat ds !! (2 * i) = Some (TNumber (Operation_value (operation d)))
  ∧ flat ds !! (2 * i + 1) = Some (TString (until_nul (text d))).
Proof.
  induction ds as [|d' ds IH]; intros i d Hi; [discriminate|].
  change (flat (d' :: ds)) with (marshal d' ++ flat ds).
  destruct i as [|i].
  - injection Hi as ->. split; reflexivity.
  - simpl in Hi. destruct (IH i d Hi) as [H1 H2].
    replace (2 * S i) with (S (S (2 * i))) by lia.
    split; [exact H1|exact H2].
Qed.

Lemma flat_encoding_flat ds :
  Forall (λ d, nul_free (text d) = true) ds →
  flat_encoding ds (mkTable (map_seqZ 1 (flat ds)) ∅).
Proof.
  intros Hnf. split; [reflexivity|]. split.
  - intros j. simpl. rewrite lookup_map_seqZ_is_Some, length_flat. lia.
  - intros i d Hi. simpl.
    destruct (lookup_flat ds i d Hi) as [H1 H2].
    rewrite Forall_forall in Hnf.
    rewrite (until_nul_id (text d)) in H2
      by (apply Hnf; eapply list_elem_of_lookup_2; eauto).
    split.
    + apply (lookup_map_seqZ_Some_inv (M:=gmap Z) 1) in H1.
      rewrite <- H1. f_equal. lia.
    + apply (lookup_map_seqZ_Some_inv (M:=gmap Z) 1) in H2.
      rewrite <- H2. f_equal. lia.
Qed.

Lemma joined_script A B :
  reconstructs dmp →
  joined INSERT (flat (script dmp A B)) = until_nul A
  ∧ joined DELETE (flat (script dmp A B)) = until_nul B.
Proof.
  intros Hc. rewrite !joined_flat by (apply script_nul_free; exact Hc).
  unfold script. split.
  - fold (diff_text1 (diff_cleanupSemantic dmp
      (diff_main dmp (until_nul A) (until_nul B) false))).
    rewrite (cleanup_text1 _ Hc). apply (main_text1 _ Hc).
  - fold (diff_text2 (diff_cleanupSemantic dmp
      (diff_main dmp (until_nul A) (until_nul B) false))).
    rewrite (cleanup_text2 _ Hc). apply (main_text2 _ Hc).
Qed.

(** The NUL byte costs the reconstruction property with every engine that
    meets its contract, and the identity property with every engine. *)
Lemma reconstruction_needs_c_string A B :
  reconstructs dmp → reconstruction tostringbuff dmp A B → nul_free A = true.
Proof.
  intros Hc (vs & Hret & H1 & _).
  apply returns_sequence_unique in Hret. subst vs.
  rewrite (proj1 (joined_script A B Hc)) in H1.
  rewrite <- H1. apply until_nul_nul_free.
Qed.

Lemma identity_needs_c_string A :
  identity tostringbuff dmp A → nul_free A = true.
Proof.
  intros Hret. apply returns_sequence_unique in Hret.
  destruct (script dmp A A) as [|d [|d' rest]]; try discriminate Hret.
  injection Hret as _ ->. apply until_nul_nul_free.
Qed.

(** C1, amended.  With an engine that meets its contract, the sequence
    [diff(A, B)] returns reads back as A and as B, each cut at its first
    NUL byte: the texts without their insertions join to A, the texts
    without their deletions join to B.  For strings without NUL this is
    the reconstruction property as the spec words it. *)
Theorem diff_reconstruction_c_strings A B :
  reconstructs dmp →
  (∃ vs, returns_sequence tostringbuff dmp A B vs
         ∧ joined INSERT vs = until_nul A
         ∧ joined DELETE vs = until_nul B)
  ∧ (nul_free A = true → nul_free B = true →
     reconstruction tostringbuff dmp A B).
Proof.
  intros Hc. destruct (joined_script A B Hc) as [H1 H2].
  split.
  - exists (flat (script dmp A B)). split; [apply returns_flat|]. split; assumption.
  - intros HA HB. exists (flat (script dmp A B)).
    split; [apply returns_flat|].
    rewrite H1, H2, !until_nul_id by assumption. split; reflexivity.
Qed.

(** C2.  With an engine that meets its contract, [diff(A, B)] returns a
    new table whose keys are exactly 1 .. 2N for the N operations of the
    script; key 2i+1 holds the kind of operation i (counted from 0) as a
    number, key 2i+2 its text.  The kinds are -1 for DELETE, 1 for INSERT and
    0 for EQUAL, the values the spec gives [enum Operation]. *)
Theorem diff_flat_encoding A B :
  reconstructs dmp →
  (∀ (Obj : Type) (L : lua_State Obj), ∃ t L' tb,
     call (diff tostringbuff dmp) [TString A; TString B] L = Done [TTable t] L'
     ∧ tables L' !! t = Some tb
     ∧ flat_encoding (script dmp A B) tb)
  ∧ (∀ op, Operation_value op ∈ [-1; 0; 1]%Z)
  ∧ Operation_value DELETE = (-1)%Z
  ∧ Operation_value INSERT = 1%Z
  ∧ Operation_value EQUAL = 0%Z.
Proof.
  intros Hc. split; [|split; [|repeat split]].
  - intros Obj L.
    destruct (returns_flat A B Obj L) as (t & L' & Hcall & _ & Htb).
    exists t, L', (mkTable (map_seqZ 1 (flat (script dmp A B))) ∅).
    split; [exact Hcall|]. split; [exact Htb|].
    apply flat_encoding_flat, script_nul_free, Hc.
  - intros []; simpl; set_solver.
Qed.

(** C9, amended.  With an engine that meets the identity contract,
    [diff(A, A)] returns for every string A:
    - when A cut at its first NUL byte is not empty, the sequence of length
      two: the EQUAL kind, then A cut at its first NUL byte;
    - when A has no NUL byte and is not empty, exactly what the spec words:
      the EQUAL kind, then A;
    - when A is empty or starts with a NUL byte, the engine's script for two
      empty texts, whatever that is: the empty table for an engine that
      leaves out operations with empty text. *)
Theorem diff_identity_c_string A :
  collapses_self_comparison dmp →
  (until_nul A ≠ EmptyString →
   returns_sequence tostringbuff dmp A A
     [TNumber (Operation_value EQUAL); TString (until_nul A)])
  ∧ (nul_free A = true → A ≠ EmptyString → identity tostringbuff dmp A)
  ∧ (until_nul A = EmptyString →
     returns_sequence tostringbuff dmp A A (flat (empty_comparison dmp))
     ∧ (empty_comparison dmp = [] → ¬ identity tostringbuff dmp A)).
Proof.
  intros Hc.
  assert (Hflat : until_nul A ≠ EmptyString →
                  flat (script dmp A A)
                  = [TNumber (Operation_value EQUAL); TString (until_nul A)]).
  { intros Hne. unfold script. rewrite (Hc _ Hne). unfold flat. simpl.
    rewrite (until_nul_id (until_nul A)) by apply until_nul_nul_free.
    reflexivity. }
  split; [|split].
  - intros Hne. rewrite <- (Hflat Hne). apply returns_flat.
  - intros HA Hne. unfold identity.
    rewrite <- (until_nul_id A HA) in Hne.
    rewrite <- (until_nul_id A HA) at 3. rewrite <- (Hflat Hne).
    apply returns_flat.
  - intros He.
    assert (Hs : script dmp A A = empty_comparison dmp).
    { unfold script, empty_comparison. rewrite He. reflexivity. }
    split.
    + rewrite <- Hs. apply returns_flat.
    + intros Hnil Hid. apply returns_sequence_unique in Hid.
      rewrite Hs, Hnil in Hid. discriminate Hid.
Qed.

End DiffClaims.

Section DiffExamples.

Import Diff.

Lemma diff_reconstruction_c_strings_witness :
  reconstructs PrefixDiff.engine
  ∧ ((∃ vs, returns_sequence WordList.tostringbuff PrefixDiff.engine
              "hello world" "hello there" vs
            ∧ joined INSERT vs = until_nul "hello world"
            ∧ joined DELETE vs = until_nul "hello there")
     ∧ (nul_free "hello world" = true → nul_free "hello there" = true →
        reconstruction WordList.tostringbuff PrefixDiff.engine
          "hello world" "hello there")).
Proof.
  split; [exact prefix_engine_reconstructs|].
  apply (diff_reconstruction_c_strings WordList.tostringbuff PrefixDiff.engine
           "hello world" "hello there").
  exact prefix_engine_reconstructs.
Defined.

(** C1 as stated fails on a string with a NUL byte: [diff("a\0b", "a")]
    returns the sequence 0, "a", which reads back as "a". *)
Lemma diff_reconstruction_nul_counterexample :
  ¬ reconstruction WordList.tostringbuff PrefixDiff.engine a_nul_b "a".
Proof.
  intros Hrec.
  apply (reconstruction_needs_c_string _ _ _ _ prefix_engine_reconstructs) in Hrec.
  discriminate Hrec.
Qed.

(** What the call returns there. *)
Example diff_a_nul_b :
  returns_sequence WordList.tostringbuff PrefixDiff.engine a_nul_b "a"
    [TNumber 0; TString "a"].
Proof. apply (returns_flat WordList.tostringbuff PrefixDiff.engine a_nul_b "a"). Qed.

Lemma diff_flat_encoding_witness :
  reconstructs PrefixDiff.engine
  ∧ ((∀ (Obj : Type) (L : lua_State Obj), ∃ t L' tb,
        call (diff WordList.tostringbuff PrefixDiff.engine)
             [TString "hello world"; TString "hello there"] L
        = Done [TTable t] L'
        ∧ tables L' !! t = Some tb
        ∧ flat_encoding (script PrefixDiff.engine "hello world" "hello there") tb)
     ∧ (∀ op, Operation_value op ∈ [-1; 0; 1]%Z)
     ∧ Operation_value DELETE = (-1)%Z
     ∧ Operation_value INSERT = 1%Z
     ∧ Operation_value EQUAL = 0%Z).
Proof.
  split; [exact prefix_engine_reconstructs|].
  apply (diff_flat_encoding WordList.tostringbuff PrefixDiff.engine
           "hello world" "hello there").
  exact prefix_engine_reconstructs.
Defined.

Lemma diff_identity_c_string_witness :
  collapses_self_comparison PrefixDiff.engine
  ∧ identity WordList.tostringbuff PrefixDiff.engine "hello"
  ∧ returns_sequence WordList.tostringbuff PrefixDiff.engine a_nul_b a_nul_b
      [TNumber (Operation_value EQUAL); TString "a"]
  ∧ returns_sequence WordList.tostringbuff PrefixDiff.engine "" "" []
  ∧ ¬ identity WordList.tostringbuff PrefixDiff.engine "".
Proof.
  split; [exact prefix_engine_collapses|]. split; [|split].
  - refine (proj1 (proj2 (diff_identity_c_string WordList.tostringbuff
                            PrefixDiff.engine "hello"
                            prefix_engine_collapses)) _ _);
      [reflexivity|discriminate].
  - refine (proj1 (diff_identity_c_string WordList.tostringbuff
                     PrefixDiff.engine a_nul_b
                     prefix_engine_collapses) _).
    discriminate.
  - refine (let K := proj2 (proj2 (diff_identity_c_string
                                     WordList.tostringbuff PrefixDiff.engine ""
                                     prefix_engine_collapses))
                       eq_refl in conj (proj1 K) (proj2 K eq_refl)).
Defined.

(** C9 as stated fails on a string with a NUL byte, whatever the engine:
    [diff("a\0b", "a\0b")] returns the sequence 0, "a", and "a" is not the
    argument. *)
Lemma diff_identity_nul_counterexample :
  ¬ identity WordList.tostringbuff PrefixDiff.engine a_nul_b.
Proof.
  intros Hid. apply identity_needs_c_string in Hid. discriminate Hid.
Qed.

Example diff_a_nul_b_twice :
  returns_sequence WordList.tostringbuff PrefixDiff.engine a_nul_b a_nul_b
    [TNumber 0; TString "a"].
Proof. apply (returns_flat WordList.tostringbuff PrefixDiff.engine a_nul_b a_nul_b). Qed.

(** The scenario of the spec (8): "hello world" against "hello there". *)
Example diff_hello :
  returns_sequence WordList.tostringbuff PrefixDiff.engine
    "hello world" "hello there"
    [TNumber 0; TString "hello "; TNumber (-1); TString "world";
     TNumber 1; TString "there"].
Proof.
  apply (returns_flat WordList.tostringbuff PrefixDiff.engine
           "hello world" "hello there").
Qed.

End DiffExamples.

(** ** The spellcheck bridge *)

Section SpellFacts.

Import Spell.

Variable tostringbuff : Z → string.
Variable H : Hunspell_class.
Implicit Types (L : lua_State (Hunspell H)) (s pre post : list TValue).
Implicit Types (ts : list Table) (us : list Udata) (ns : list (Hunspell H)).
Implicit Types (r : gmap string TValue) (cs : list native_call).

Lemma checked_Hunspell_run s ts us r ns cs u b m :
  s !! 0 = Some (TUserdata u) → us !! u = Some b → metatable b = Some m →
  r !! "ta_spell" = Some (TTable m) →
  checked_Hunspell H (mkState s ts us r ns cs)
  = Done (payload b) (mkState s ts us r ns cs).
Proof.
  intros Hs Hu Hm Hr. unfold checked_Hunspell.
  run ltac:(eapply luaL_checkudata_handle; eauto).
  unfold peek. fields. rewrite Hu. reflexivity.
Qed.

Lemma checked_Hunspell_bad s ts us r ns cs :
  ¬ is_handle (mkState s ts us r ns cs) (s !! 0) →
  checked_Hunspell H (mkState s ts us r ns cs)
  = Raise (bad_argument 1 "ta_spell") (mkState s ts us r ns cs).
Proof.
  intros Hbad. unfold checked_Hunspell.
  erewrite bind_Raise; [reflexivity|]. apply luaL_checkudata_bad. exact Hbad.
Qed.

Lemma deref_run s ts us r ns cs p o :
  ns !! p = Some o →
  deref (Some p) (mkState s ts us r ns cs) = Done (p, o) (mkState s ts us r ns cs).
Proof. intros Hp. unfold deref. fields. rewrite Hp. reflexivity. Qed.

Lemma assign_run s ts us r ns cs p o o' :
  ns !! p = Some o →
  assign p o' (mkState s ts us r ns cs) = Done tt (mkState s ts us r (<[p := o']> ns) cs).
Proof. intros Hp. unfold assign. fields. rewrite Hp. reflexivity. Qed.

Lemma suggest_loop_run slst : ∀ pre t ts' h us r ns cs done,
  ts' !! t = Some (mkTable (map_seqZ 1 done) h) →
  suggest_loop H slst (Z.of_nat (length done))
    (mkState (pre ++ [TTable t]) ts' us r ns cs)
  = Done tt (mkState (pre ++ [TTable t])
               (<[t := mkTable (map_seqZ 1 (done ++ (TString ∘ chars <$> slst))) h]> ts')
               us r ns cs).
Proof.
  induction slst as [|x rest IH]; intros pre t ts' h us r ns cs done Ht.
  - simpl. rewrite app_nil_r, list_insert_id by exact Ht. reflexivity.
  - simpl suggest_loop.
    assert (Hlen : t < length ts') by (eapply lookup_lt_Some; eauto).
    run ltac:(apply push_run).
    rewrite <- app_assoc. simpl app.
    run ltac:(apply lua_rawseti_top; exact Ht).
    cbn [array hash store].
    set (ts'' := <[t := _]> ts').
    assert (Ht'' : ts'' !! t
                   = Some (mkTable (map_seqZ 1 (done ++ [TString (chars x)])) h)).
    { subst ts''. rewrite list_lookup_insert_eq by exact Hlen.
      do 2 f_equal. rewrite map_seqZ_snoc. f_equal. lia. }
    pose proof (IH pre t ts'' h us r ns cs (done ++ [TString (chars x)]) Ht'') as Hrest.
    rewrite length_app, Nat2Z.inj_add in Hrest.
    change (Z.of_nat (length [TString (chars x)])) with 1%Z in Hrest.
    rewrite Hrest. subst ts''.
    rewrite list_insert_insert_eq. simpl fmap.
    rewrite <- app_assoc. reflexivity.
Qed.

(** *** The four methods on a handle *)

Section OnHandle.

Variables (s0 s : list TValue) (ts : list Table) (us : list Udata).
Variables (r : gmap string TValue) (ns : list (Hunspell H)) (cs : list native_call).
Variables (u p m : nat) (o : Hunspell H) (v : TValue) (w : string).
Hypothesis arg1 : s !! 0 = Some (TUserdata u).
Hypothesis arg2 : s !! 1 = Some v.
Hypothesis text2 : text_of tostringbuff v = Some w.
Hypothesis block : us !! u = Some (mkUdata (Some p) (Some m)).
Hypothesis registered : r !! "ta_spell" = Some (TTable m).
Hypothesis object : ns !! p = Some o.

Lemma ls_spell_run :
  call (ls_spell tostringbuff H) s (mkState s0 ts us r ns cs)
  = Done [TBoolean (negb (hs_spell H o (c_str w) =? 0)%Z)]
         (mkState [] ts us r ns (cs ++ [call_spell p (c_str w)])).
Proof using All.
  unfold call, ls_spell. fields.
  run ltac:(eapply checked_Hunspell_run; eauto).
  run ltac:(eapply (luaL_checkstring_text _ _ _ _ _ _ _ 1); eauto).
  run ltac:(apply deref_run; exact object).
  run_eq. run_eq. unfold mret, lua_ret. fields.
  rewrite drop_app_length' by (rewrite length_app; simpl; lia).
  reflexivity.
Qed.

Lemma ls_addword_run :
  call (ls_addword tostringbuff H) s (mkState s0 ts us r ns cs)
  = Done [] (mkState [] ts us r (<[p := (hs_add H o (c_str w)).1]> ns)
               (cs ++ [call_add p (c_str w)])).
Proof using All.
  unfold call, ls_addword. fields.
  run ltac:(eapply checked_Hunspell_run; eauto).
  run ltac:(eapply (luaL_checkstring_text _ _ _ _ _ _ _ 1); eauto).
  run ltac:(apply deref_run; exact object).
  run_eq.
  run ltac:(eapply assign_run; exact object).
  unfold mret, lua_ret. fields.
  rewrite drop_ge by (simpl; lia). reflexivity.
Qed.

Lemma ls_suggest_run :
  call (ls_suggest tostringbuff H) s (mkState s0 ts us r ns cs)
  = Done [TTable (length ts)]
         (mkState []
            (ts ++ [mkTable (map_seqZ 1 (TString ∘ chars <$> hs_suggest H o (c_str w))) ∅])
            us r ns
            (cs ++ [call_suggest p (c_str w);
                    call_free_list p (length (hs_suggest H o (c_str w)))])).
Proof using All.
  unfold call, ls_suggest. fields.
  run ltac:(eapply checked_Hunspell_run; eauto).
  run ltac:(eapply (luaL_checkstring_text _ _ _ _ _ _ _ 1); eauto).
  run ltac:(apply deref_run; exact object).
  run_eq. run_eq. fields.
  run ltac:(apply (suggest_loop_run _ _ (length ts) _ ∅ _ _ _ _ []);
            apply list_lookup_middle; reflexivity).
  run_eq. unfold mret, lua_ret. fields.
  rewrite drop_app_length' by (rewrite length_app; simpl; lia).
  fields. simpl app. rewrite insert_snoc, <- app_assoc. reflexivity.
Qed.

Lemma ls_adddic_run key :
  opt_text_of tostringbuff (s !! 2) = Some key →
  call (ls_adddic tostringbuff H) s (mkState s0 ts us r ns cs)
  = Done [] (mkState [] ts us r
               (<[p := (hs_add_dic H o (c_str w) (c_str <$> key)).1]> ns)
               (cs ++ [call_add_dic p (c_str w) (c_str <$> key)])).
Proof using All.
  intros Hkey. unfold call, ls_adddic. fields.
  run ltac:(eapply checked_Hunspell_run; eauto).
  run ltac:(eapply (luaL_checkstring_text _ _ _ _ _ _ _ 1); eauto).
  run ltac:(apply (luaL_optstring_run _ _ _ _ _ _ _ 2);
            rewrite list_lookup_insert_ne by lia; exact Hkey).
  run ltac:(apply deref_run; exact object).
  run_eq.
  run ltac:(eapply assign_run; exact object).
  unfold mret, lua_ret. fields.
  rewrite drop_ge by (simpl; lia). reflexivity.
Qed.

(** The order in which the path and the key are read makes no difference
    to a call that reads both. *)
Lemma ls_adddic_key_first_run key :
  opt_text_of tostringbuff (s !! 2) = Some key →
  call (ls_adddic_key_first tostringbuff H) s (mkState s0 ts us r ns cs)
  = Done [] (mkState [] ts us r
               (<[p := (hs_add_dic H o (c_str w) (c_str <$> key)).1]> ns)
               (cs ++ [call_add_dic p (c_str w) (c_str <$> key)])).
Proof using All.
  intros Hkey. unfold call, ls_adddic_key_first. fields.
  run ltac:(eapply checked_Hunspell_run; eauto).
  run ltac:(apply (luaL_optstring_run _ _ _ _ _ _ _ 2); exact Hkey).
  run ltac:(eapply (luaL_checkstring_text _ _ _ _ _ _ _ 1);
            [destruct key; [rewrite list_lookup_insert_ne by lia|];
             exact arg2 | exact text2]).
  run ltac:(apply deref_run; exact object).
  run_eq.
  run ltac:(eapply assign_run; exact object).
  unfold mret, lua_ret. fields.
  rewrite drop_ge by (destruct key; simpl; rewrite ?length_insert; lia).
  reflexivity.
Qed.

End OnHandle.

(** *** The constructor *)

Lemma poke_new s ts us r ns cs b hs :
  poke (length us) hs (mkState s ts (us ++ [b]) r ns cs)
  = Done tt (mkState s ts (us ++ [mkUdata (Some hs) (metatable b)]) r ns cs).
Proof.
  unfold poke, update_udata. fields.
  rewrite list_lookup_middle by reflexivity. rewrite insert_snoc. reflexivity.
Qed.

Lemma luaL_setmetatable_new pre ts us r ns cs b m :
  r !! "ta_spell" = Some (TTable m) →
  luaL_setmetatable "ta_spell"
    (mkState (pre ++ [TUserdata (length us)]) ts (us ++ [b]) r ns cs)
  = Done tt (mkState (pre ++ [TUserdata (length us)]) ts
               (us ++ [mkUdata (payload b) (Some m)]) r ns cs).
Proof.
  intros Hr. unfold luaL_setmetatable.
  run ltac:(unfold luaL_getmetatable; fields; rewrite Hr; apply push_run).
  unfold lua_setmetatable.
  run ltac:(apply pop_snoc).
  run ltac:(rewrite (index2value_neg pre (TUserdata (length us)) []); reflexivity).
  cbn [default from_option id]. cbv beta iota. unfold update_udata. fields.
  rewrite list_lookup_middle by reflexivity. rewrite insert_snoc. reflexivity.
Qed.

Lemma spell_run s0 s ts us r ns cs v1 v2 aff dic key m :
  s !! 0 = Some v1 → text_of tostringbuff v1 = Some aff →
  s !! 1 = Some v2 → text_of tostringbuff v2 = Some dic →
  opt_text_of tostringbuff (s !! 2) = Some key →
  r !! "ta_spell" = Some (TTable m) →
  call (spell tostringbuff H) s (mkState s0 ts us r ns cs)
  = Done [TUserdata (length us)]
      (mkState [] ts (us ++ [mkUdata (Some (length ns)) (Some m)]) r
         (ns ++ [hs_new H (c_str aff) (c_str dic) (c_str <$> key)])
         (cs ++ [call_Hunspell (c_str aff) (c_str dic) (c_str <$> key)])).
Proof.
  intros H1 T1 H2 T2 Hk Hr. unfold call, spell. fields.
  run ltac:(eapply (luaL_checkstring_text _ _ _ _ _ _ _ 0); eauto).
  run ltac:(eapply (luaL_checkstring_text _ _ _ _ _ _ _ 1);
            [rewrite list_lookup_insert_ne by lia; exact H2 | exact T2]).
  run ltac:(apply (luaL_optstring_run _ _ _ _ _ _ _ 2);
            rewrite !list_lookup_insert_ne by lia; exact Hk).
  run_eq. run_eq. run_eq. fields.
  run ltac:(apply poke_new).
  run ltac:(apply luaL_setmetatable_new; exact Hr).
  unfold mret, lua_ret. fields.
  rewrite drop_app_length' by (rewrite length_app; simpl; lia).
  reflexivity.
Qed.

(** *** A collaborator that can fail *)





Section LoadingOnHandle.

Variable unloadable : loading.
Variables (s0 s : list TValue) (ts : list Table) (us : list Udata).
Variables (r : gmap string TValue) (ns : list (Hunspell H)) (cs : list native_call).
Variables (u p m : nat) (o : Hunspell H) (v : TValue) (w : string).
Variable key : option string.
Hypothesis arg1 : s !! 0 = Some (TUserdata u).
Hypothesis arg2 : s !! 1 = Some v.
Hypothesis text2 : text_of tostringbuff v = Some w.
Hypothesis arg3 : opt_text_of tostringbuff (s !! 2) = Some key.
Hypothesis block : us !! u = Some (mkUdata (Some p) (Some m)).
Hypothesis registered : r !! "ta_spell" = Some (TTable m).
Hypothesis object : ns !! p = Some o.



End LoadingOnHandle.

(** With a collaborator that never fails the two readings of each function
    are one. *)
Lemma spell_loading_never :
  spell_loading tostringbuff H (λ _ _, false) = spell tostringbuff H.
Proof. reflexivity. Qed.

Lemma ls_adddic_loading_never :
  ls_adddic_loading tostringbuff H (λ _ _, false) = ls_adddic tostringbuff H.
Proof. reflexivity. Qed.

(** *** Opening the module *)

Lemma luaL_setfuncs_run l : ∀ pre t ts tb us r ns cs,
  ts !! t = Some tb →
  luaL_setfuncs l (mkState (pre ++ [TTable t]) ts us r ns cs)
  = Done tt (mkState (pre ++ [TTable t])
               (<[t := mkTable (array tb) (with_funcs l (hash tb))]> ts) us r ns cs).
Proof.
  induction l as [|[name f] l IH]; intros pre t ts tb us r ns cs Ht.
  - simpl. destruct tb. rewrite list_insert_id by exact Ht. reflexivity.
  - simpl luaL_setfuncs.
    assert (Hlen : t < length ts) by (eapply lookup_lt_Some; eauto).
    run ltac:(apply push_run).
    rewrite <- app_assoc. simpl app.
    run ltac:(apply lua_setfield_top; exact Ht).
    erewrite IH by (apply list_lookup_insert_eq; exact Hlen).
    rewrite list_insert_insert_eq. reflexivity.
Qed.

Lemma luaopen_spell_run s0 s ts us r ns cs :
  r !! "ta_spell" = None →
  call (luaopen_spell H) s (mkState s0 ts us r ns cs)
  = Done [TFunction F_spell]
      (mkState [] (ts ++ [mkTable ∅ (ta_spell_methods (length ts))]) us
         (<["ta_spell" := TTable (length ts)]> r) ns cs).
Proof.
  intros Hr. unfold call, luaopen_spell. fields.
  run ltac:(
    unfold luaL_newmetatable; fields; rewrite Hr;
    run_eq; fields;
    run ltac:(apply push_run);
    rewrite <- app_assoc; simpl app;
    run ltac:(apply lua_setfield_top; apply list_lookup_middle; reflexivity);
    run ltac:(unfold table_at;
              rewrite (index2value_neg s (TTable (length ts)) []); reflexivity);
    run_eq; reflexivity).
  fields. rewrite insert_snoc.
  run ltac:(apply luaL_setfuncs_run; apply list_lookup_middle; reflexivity).
  rewrite insert_snoc.
  run ltac:(unfold lua_pushvalue;
            run ltac:(rewrite (index2value_neg s (TTable (length ts)) []); reflexivity);
            apply push_run).
  rewrite <- app_assoc. simpl app.
  run ltac:(apply lua_setfield_top; apply list_lookup_middle; reflexivity).
  rewrite insert_snoc.
  run_eq. unfold mret, lua_ret. fields.
  rewrite drop_app_length' by (rewrite length_app; simpl; lia).
  reflexivity.
Qed.

Lemma ta_spell_methods_no_gc t : ta_spell_methods t !! "__gc" = None.
Proof.
  unfold ta_spell_methods, with_funcs, lib. simpl.
  by rewrite !lookup_insert_ne, lookup_empty.
Qed.

End SpellFacts.

(** ** Wrong arguments *)

Section Rejections.

Import Diff Spell.

Variable tostringbuff : Z → string.

(** A function that starts by reading two text arguments raises before it
    goes on when either is not text. *)
Lemma two_texts_rejects {Obj} (k : cstring → cstring → lua Obj Z) args
    (L : lua_State Obj) :
  ¬ is_text tostringbuff (args !! 0) ∨ ¬ is_text tostringbuff (args !! 1) →
  rejects (a ← luaL_checkstring tostringbuff 1;
           b ← luaL_checkstring tostringbuff 2; k a b) args L.
Proof.
  destruct L as [s0 ts us r ns cs]. intros Hbad. unfold rejects, call. fields.
  destruct (is_text_dec tostringbuff (args !! 0)) as [(v & w & Hv & Hw)|H0].
  - destruct Hbad as [H0|H1]; [exfalso; apply H0; eexists _, _; eauto|].
    run ltac:(eapply (luaL_checkstring_text _ _ _ _ _ _ _ 0); eauto).
    erewrite bind_Raise; cycle 1.
    { apply (luaL_checkstring_bad _ _ _ _ _ _ _ 1).
      rewrite list_lookup_insert_ne by lia. exact H1. }
    eexists _, _, _. split; [reflexivity|]. split; reflexivity.
  - erewrite bind_Raise; cycle 1.
    { apply (luaL_checkstring_bad _ _ _ _ _ _ _ 0). exact H0. }
    eexists _, _, _. split; [reflexivity|]. split; reflexivity.
Qed.

(** A call that starts with a native step goes on from the state that
    records it. *)
Lemma call_logged {Obj} c (m : lua Obj Z) args (L : lua_State Obj) :
  call (native_call_log c;; m) args L
  = call m args (set_calls (λ cs, cs ++ [c]) L).
Proof. destruct L. reflexivity. Qed.

(** [diff] has constructed its engine object, and has asked nothing of it,
    when it raises. *)
Lemma diff_rejects {Obj} dmp args (L : lua_State Obj) :
  ¬ is_text tostringbuff (args !! 0) ∨ ¬ is_text tostringbuff (args !! 1) →
  rejects_after [call_diff_match_patch] (diff tostringbuff dmp) args L.
Proof.
  intros Hbad. unfold rejects_after, diff. rewrite call_logged.
  edestruct (@two_texts_rejects Obj) as (arg & tname & L' & Hr & Hc & Hn);
    [exact Hbad|].
  exists arg, tname, L'. split; [exact Hr|]. split; [|exact Hn].
  rewrite Hc. destruct L. reflexivity.
Qed.

Variable H : Hunspell_class.

Lemma spell_rejects args (L : lua_State (Hunspell H)) :
  ¬ is_text tostringbuff (args !! 0) ∨ ¬ is_text tostringbuff (args !! 1) →
  rejects (spell tostringbuff H) args L.
Proof. apply two_texts_rejects. Qed.

(** A method that starts by checking the handle and reading a text argument
    raises before it goes on when either check fails. *)
Lemma method_rejects (k : option nat → cstring → lua (Hunspell H) Z) args
    (L : lua_State (Hunspell H)) :
  ¬ is_handle L (args !! 0) ∨ ¬ is_text tostringbuff (args !! 1) →
  rejects (hs ← checked_Hunspell H;
           word ← luaL_checkstring tostringbuff 2; k hs word) args L.
Proof.
  destruct L as [s0 ts us r ns cs]. intros Hbad. unfold rejects, call. fields.
  destruct (is_handle_dec (mkState s0 ts us r ns cs) (args !! 0))
    as [(u & b & m & Ha & Hb & Hm & Hr)|H0].
  - destruct Hbad as [H0|H1];
      [exfalso; apply H0; exists u, b, m; repeat split; assumption|].
    run ltac:(eapply checked_Hunspell_run; eauto).
    erewrite bind_Raise; cycle 1.
    { apply (luaL_checkstring_bad _ _ _ _ _ _ _ 1). exact H1. }
    eexists _, _, _. split; [reflexivity|]. split; reflexivity.
  - erewrite bind_Raise; cycle 1.
    { apply checked_Hunspell_bad. exact H0. }
    eexists _, _, _. split; [reflexivity|]. split; reflexivity.
Qed.

(** C3, amended.  Each of the six operations raises an argument error when
    a required argument is missing or of the wrong kind: for [diff] and the
    constructor a first or second argument that is neither a string nor a
    number; for the four methods a first argument that is not a userdata of
    the registered type, or a second argument that is neither a string nor a
    number.  The five spellcheck operations have made no native call by
    then.  [diff] has made one: the constructor of its engine object, which
    the declaration of [dmp] runs before the first check; it has asked
    nothing of the engine. *)
Theorem wrong_arguments_rejected dmp args (L : lua_State (Hunspell H)) :
  (¬ is_text tostringbuff (args !! 0) ∨ ¬ is_text tostringbuff (args !! 1) →
   rejects_after [call_diff_match_patch] (diff tostringbuff dmp) args L
   ∧ rejects (spell tostringbuff H) args L)
  ∧ (¬ is_handle L (args !! 0) ∨ ¬ is_text tostringbuff (args !! 1) →
     rejects (ls_spell tostringbuff H) args L
     ∧ rejects (ls_suggest tostringbuff H) args L
     ∧ rejects (ls_addword tostringbuff H) args L
     ∧ rejects (ls_adddic tostringbuff H) args L).
Proof.
  split; intros Hbad.
  - split; [apply diff_rejects|apply spell_rejects]; exact Hbad.
  - repeat split; apply method_rejects; exact Hbad.
Qed.

End Rejections.

(** ** Claims about the spellcheck module *)

Section SpellClaims.

Import Spell Host.

Variable tostringbuff : Z → string.
Variable H : Hunspell_class.
Implicit Types (L : lua_State (Hunspell H)).

Lemma holds_sequence_map_seqZ vs : holds_sequence vs (mkTable (map_seqZ 1 vs) ∅).
Proof.
  split; [reflexivity|]. split.
  - intros j. simpl. rewrite lookup_map_seqZ_is_Some. lia.
  - intros i v Hi. simpl.
    apply (lookup_map_seqZ_Some_inv (M:=gmap Z) 1) in Hi.
    rewrite <- Hi. f_equal. lia.
Qed.

(** C10.  On a handle and a word, [suggest] returns a new table that holds
    exactly the candidates the spell checker reported, in its order, at the
    keys 1 .. n: the candidate a C index [i] names is at key [i + 1], and
    the table is empty when there is none.  The native list is freed after
    the copy. *)
Theorem suggest_returns_candidates L u p o v w :
  handle H L u p o → text_of tostringbuff v = Some w →
  ∃ t L' tb,
    call (ls_suggest tostringbuff H) [TUserdata u; v] L = Done [TTable t] L'
    ∧ tables L !! t = None
    ∧ tables L' !! t = Some tb
    ∧ holds_sequence (TString ∘ chars <$> hs_suggest H o (c_str w)) tb
    ∧ (hs_suggest H o (c_str w) = [] → tb = empty_table)
    ∧ calls L' = calls L ++ [call_suggest p (c_str w);
                             call_free_list p (length (hs_suggest H o (c_str w)))].
Proof.
  destruct L as [s0 ts us r ns cs]. intros (m & Hu & Hr & Hp) Hw.
  cbn [udata registry natives] in Hu, Hr, Hp.
  eexists _, _, _. split.
  { eapply (ls_suggest_run tostringbuff H s0 [TUserdata u; v]); eauto. }
  cbn [tables calls]. split; [apply lookup_ge_None_2; lia|].
  split; [apply list_lookup_middle; reflexivity|].
  split; [apply holds_sequence_map_seqZ|].
  split; [|reflexivity]. intros ->. reflexivity.
Qed.

(** What [spell] answers on a handle is what the spell checker says of the
    word read as a C string. *)
Lemma spells_handle L u p o w b :
  handle H L u p o →
  spells tostringbuff H L u w b ↔ b = negb (hs_spell H o (c_str w) =? 0)%Z.
Proof.
  destruct L as [s0 ts us r ns cs]. intros (m & Hu & Hr & Hp).
  cbn [udata registry natives] in Hu, Hr, Hp. unfold spells.
  erewrite (ls_spell_run tostringbuff H s0 [TUserdata u; TString w]); eauto;
    try reflexivity.
  split.
  - intros (L' & Hcall). injection Hcall as Hb _. symmetry. exact Hb.
  - intros ->. eexists. reflexivity.
Qed.

(** C7.  Given that the spell checker recognizes a word once it was added:
    on a handle and a word [w] for which [spell] answers false, [add_word]
    returns nothing and afterwards [spell] answers true for [w]. *)
Theorem add_word_then_spell L u p o w :
  add_makes_known H →
  handle H L u p o →
  spells tostringbuff H L u w false →
  ∃ L', call (ls_addword tostringbuff H) [TUserdata u; TString w] L = Done [] L'
        ∧ spells tostringbuff H L' u w true.
Proof.
  intros Hadd Hh _. pose proof Hh as (m & Hu & Hr & Hp).
  destruct L as [s0 ts us r ns cs]. cbn [udata registry natives] in Hu, Hr, Hp.
  eexists. split.
  { eapply (ls_addword_run tostringbuff H s0 [TUserdata u; TString w]); eauto;
      reflexivity. }
  eapply spells_handle.
  - exists m. cbn [udata registry natives]. repeat split; try eassumption.
    apply list_lookup_insert_eq. eapply lookup_lt_Some; eauto.
  - specialize (Hadd o (c_str w)). apply Z.eqb_neq in Hadd. rewrite Hadd.
    reflexivity.
Qed.

(** One addition, whatever its arguments, leaves the handle on an object
    that still recognizes what the object recognized before. *)
Lemma run_addition_keeps L u p o cw a :
  additions_keep_words H →
  handle H L u p o → hs_spell H o cw ≠ 0%Z →
  ∃ L' o', after_additions tostringbuff H u [a] L = Some L'
           ∧ handle H L' u p o' ∧ hs_spell H o' cw ≠ 0%Z.
Proof.
  intros [Kadd Kdic] Hh Hcw. pose proof Hh as (m & Hu & Hr & Hp).
  destruct L as [s0 ts us r ns cs]. cbn [udata registry natives] in Hu, Hr, Hp.
  assert (Hlt : p < length ns) by (eapply lookup_lt_Some; eauto).
  assert (Hsame : handle H (mkState [] ts us r ns cs) u p o).
  { exists m. repeat split; assumption. }
  assert (Hupd : ∀ o' cs', handle H (mkState [] ts us r (<[p:=o']> ns) cs') u p o').
  { intros o' cs'. exists m. cbn [udata registry natives].
    repeat split; try assumption. apply list_lookup_insert_eq. exact Hlt. }
  destruct a as [rest|rest]; cbn [after_additions run_addition].
  - destruct (is_text_dec tostringbuff (rest !! 0)) as [(v & w & Hv & Hw)|Hbad].
    + erewrite (ls_addword_run tostringbuff H s0 (TUserdata u :: rest)); eauto;
        try reflexivity.
      eexists _, _. split; [reflexivity|]. split; [apply Hupd|]. apply Kadd, Hcw.
    + unfold call, ls_addword.
      unfold set_stack at 1. cbn [stack tables udata registry natives calls].
      run ltac:(eapply checked_Hunspell_run; eauto; reflexivity).
      erewrite bind_Raise; cycle 1.
      { apply (luaL_checkstring_bad _ _ _ _ _ _ _ 1). exact Hbad. }
      eexists _, _. split; [reflexivity|]. split; [exact Hsame|exact Hcw].
  - destruct (is_text_dec tostringbuff (rest !! 0)) as [(v & w & Hv & Hw)|Hbad].
    + destruct (opt_text_of tostringbuff (rest !! 1)) as [key|] eqn:Hkey.
      * erewrite (ls_adddic_run tostringbuff H s0 (TUserdata u :: rest)); eauto;
          try reflexivity.
        eexists _, _. split; [reflexivity|]. split; [apply Hupd|]. apply Kdic, Hcw.
      * unfold call, ls_adddic.
        unfold set_stack at 1. cbn [stack tables udata registry natives calls].
        run ltac:(eapply checked_Hunspell_run; eauto; reflexivity).
        run ltac:(eapply (luaL_checkstring_text _ _ _ _ _ _ _ 1); eauto).
        erewrite bind_Raise; cycle 1.
        { apply (luaL_optstring_bad _ _ _ _ _ _ _ 2).
          rewrite list_lookup_insert_ne by lia. exact Hkey. }
        eexists _, _. split; [reflexivity|]. split; [exact Hsame|exact Hcw].
    + unfold call, ls_adddic.
      unfold set_stack at 1. cbn [stack tables udata registry natives calls].
      run ltac:(eapply checked_Hunspell_run; eauto; reflexivity).
      erewrite bind_Raise; cycle 1.
      { apply (luaL_checkstring_bad _ _ _ _ _ _ _ 1). exact Hbad. }
      eexists _, _. split; [reflexivity|]. split; [exact Hsame|exact Hcw].
Qed.

Lemma after_additions_keep l : ∀ L u p o cw,
  additions_keep_words H →
  handle H L u p o → hs_spell H o cw ≠ 0%Z →
  ∃ L' o', after_additions tostringbuff H u l L = Some L'
           ∧ handle H L' u p o' ∧ hs_spell H o' cw ≠ 0%Z.
Proof.
  induction l as [|a l IH]; intros L u p o cw K Hh Hcw.
  - exists L, o. split; [reflexivity|]. split; assumption.
  - destruct (run_addition_keeps L u p o cw a K Hh Hcw) as (L1 & o1 & H1 & Hh1 & Hcw1).
    destruct (IH L1 u p o1 cw K Hh1 Hcw1) as (L2 & o2 & H2 & Hh2 & Hcw2).
    exists L2, o2. split; [|split; assumption].
    cbn [after_additions] in H1 |- *.
    destruct (run_addition tostringbuff H u a L) as [x Lx|e Lx|];
      [| |discriminate H1]; injection H1 as ->; exact H2.
Qed.

(** C8.  Given that neither kind of addition makes the spell checker forget
    a word: on a handle and a word [w] for which [spell] answers true, after
    any finite sequence of [add_word] and [add_dic] calls on the handle,
    whatever their other arguments, [spell] still answers true for [w]. *)
Theorem additions_keep_spell L u p o w l :
  additions_keep_words H →
  handle H L u p o →
  spells tostringbuff H L u w true →
  ∃ L', after_additions tostringbuff H u l L = Some L'
        ∧ spells tostringbuff H L' u w true.
Proof.
  intros K Hh Hs.
  assert (Hcw : hs_spell H o (c_str w) ≠ 0%Z).
  { apply (spells_handle L u p o w true Hh) in Hs.
    intros Heq. rewrite Heq in Hs. discriminate Hs. }
  destruct (after_additions_keep l L u p o (c_str w) K Hh Hcw)
    as (L' & o' & Hafter & Hh' & Hcw').
  exists L'. split; [exact Hafter|].
  apply (spells_handle L' u p o' w true Hh').
  apply Z.eqb_neq in Hcw'. rewrite Hcw'. reflexivity.
Qed.

End SpellClaims.

(** ** Loading and releasing dictionaries *)

Section SpellResources.

Import Diff Spell Host.

Variable tostringbuff : Z → string.
Variable H : Hunspell_class.
Implicit Types (L : lua_State (Hunspell H)).



Variable dmp : diff_match_patch.

Lemma collect_without_finalizer L u b :
  udata L !! u = Some b → finalizer H L u = None →
  collect tostringbuff dmp H u L
  = Done tt (set_udata (λ us, <[u := mkUdata None None]> us) L).
Proof.
  intros Hu Hf. unfold collect. rewrite Hf. unfold update_udata. rewrite Hu.
  reflexivity.
Qed.

(** C6, amended.  The metatable [luaopen_spell] registers for handles has
    the four methods, [__index] and [__name], and no [__gc] entry.  With
    such a metatable the collection of a handle runs no finalizer: no native
    call is made, the dictionary object stays where it is, and the number of
    times it has been released does not change. *)
Theorem handles_have_no_finalizer :
  (∀ L, registry L !! "ta_spell" = None →
     ∃ L' m tb,
       call (luaopen_spell H) [] L = Done [TFunction F_spell] L'
       ∧ registry L' !! "ta_spell" = Some (TTable m)
       ∧ tables L' !! m = Some tb
       ∧ hash tb = ta_spell_methods m
       ∧ hash tb !! "__gc" = None)
  ∧ (∀ L u p o m tb,
       handle H L u p o →
       registry L !! "ta_spell" = Some (TTable m) →
       tables L !! m = Some tb → hash tb !! "__gc" = None →
       ∃ L',
         collect tostringbuff dmp H u L = Done tt L'
         ∧ calls L' = calls L
         ∧ natives L' !! p = Some o
         ∧ releases L' p = releases L p).
Proof.
  split.
  - intros [s0 ts us r ns cs] Hr. cbn [registry] in Hr.
    eexists _, _, _. split; [apply luaopen_spell_run; exact Hr|].
    cbn [registry tables].
    split; [apply lookup_insert_eq|].
    split; [apply list_lookup_middle; reflexivity|].
    split; [reflexivity|]. apply ta_spell_methods_no_gc.
  - intros L u p o m tb (m' & Hu & Hr' & Hp) Hr Htb Hgc.
    assert (m' = m) as -> by congruence.
    eexists. split.
    { eapply collect_without_finalizer; [exact Hu|].
      unfold finalizer. rewrite Hu. cbn. rewrite Htb. cbn. exact Hgc. }
    destruct L; cbn. repeat split. exact Hp.
Qed.

End SpellResources.

(** ** The word list meets the spell checker's contract *)

Section WordListFacts.

Import Spell WordList.

Lemma member_app w a b : member w (a ++ b) = member w a || member w b.
Proof. apply existsb_app. Qed.

Lemma member_self w : member w [w] = true.
Proof. unfold member. simpl. rewrite String.eqb_refl. reflexivity. Qed.

Lemma wordlist_add_makes_known : add_makes_known class.
Proof.
  intros ws w. simpl. rewrite member_app, member_self, orb_true_r. discriminate.
Qed.

Lemma wordlist_additions_keep_words : additions_keep_words class.
Proof.
  split.
  - intros ws v w. simpl. rewrite member_app.
    destruct (member (chars w) ws); [discriminate|contradiction].
  - intros ws d k w. simpl. destruct (load d) as [more|]; simpl; [|tauto].
    rewrite member_app. destruct (member (chars w) ws); [discriminate|contradiction].
Qed.

End WordListFacts.

Section SpellExamples.

Import Diff Spell Host WordList.

Local Abbreviation words := ["hello"; "help"; "world"].

Lemma loaded_handle : handle class loaded 0 0 words.
Proof. exists 0. repeat split; reflexivity. Qed.

Lemma wrong_arguments_rejected_witness :
  rejects_after [call_diff_match_patch]
    (diff tostringbuff PrefixDiff.engine) [TString "a"] loaded
  ∧ rejects (ls_spell tostringbuff class) [TTable 0; TString "hello"] loaded.
Proof.
  split.
  - apply (wrong_arguments_rejected tostringbuff class PrefixDiff.engine
             [TString "a"] loaded).
    right. intros (v & w & Hv & _). discriminate Hv.
  - apply (wrong_arguments_rejected tostringbuff class PrefixDiff.engine
             [TTable 0; TString "hello"] loaded).
    left. intros (u & b & m & Hu & _). discriminate Hu.
Defined.

(** C3 as stated fails for numbers: [diff(1, 2)] has no string argument, is
    not rejected, and calls the engine on "1" and "2" once it has
    constructed it. *)
Lemma diff_accepts_numbers_counterexample :
  ¬ is_string ([TNumber 1; TNumber 2] !! 0)
  ∧ ¬ rejects (diff tostringbuff PrefixDiff.engine) [TNumber 1; TNumber 2]
               (fresh_state (Obj:=unit))
  ∧ ¬ rejects_after [call_diff_match_patch]
        (diff tostringbuff PrefixDiff.engine) [TNumber 1; TNumber 2]
        (fresh_state (Obj:=unit))
  ∧ calls (state_of (call (diff tostringbuff PrefixDiff.engine)
                          [TNumber 1; TNumber 2] (fresh_state (Obj:=unit))))
    = [call_diff_match_patch; call_diff_main "1" "2" false;
       call_diff_cleanupSemantic].
Proof.
  split; [intros (w & Hw); discriminate Hw|]. split; [|split].
  - intros (arg & tname & L' & Hcall & _). vm_compute in Hcall. discriminate Hcall.
  - intros (arg & tname & L' & Hcall & _). vm_compute in Hcall. discriminate Hcall.
  - vm_compute. reflexivity.
Qed.



Lemma handles_have_no_finalizer_witness :
  ∃ L',
    collect tostringbuff PrefixDiff.engine class 0 loaded = Done tt L'
    ∧ calls L' = calls loaded
    ∧ natives L' !! 0 = Some words
    ∧ releases L' 0 = releases loaded 0.
Proof.
  apply (proj2 (handles_have_no_finalizer tostringbuff class PrefixDiff.engine)
           loaded 0 0 words 0 (mkTable ∅ (ta_spell_methods 0)));
    [exact loaded_handle|reflexivity..].
Defined.

(** C6 as stated fails: the handle made by the constructor has no finalizer,
    and once it is collected its dictionary object is still there and has been
    released zero times, not once. *)
Lemma collected_handle_counterexample :
  finalizer class loaded 0 = None
  ∧ ∃ L', collect tostringbuff PrefixDiff.engine class 0 loaded = Done tt L'
          ∧ natives L' !! 0 = Some words
          ∧ releases L' 0 = 0.
Proof.
  split; [reflexivity|].
  exists (state_of (collect tostringbuff PrefixDiff.engine class 0 loaded)).
  split; [vm_compute; reflexivity|]. split; reflexivity.
Qed.

Lemma add_word_then_spell_witness :
  add_makes_known class
  ∧ handle class loaded 0 0 words
  ∧ spells tostringbuff class loaded 0 "helo" false
  ∧ ∃ L', call (ls_addword tostringbuff class) [TUserdata 0; TString "helo"] loaded
          = Done [] L'
          ∧ spells tostringbuff class L' 0 "helo" true.
Proof.
  assert (Hfalse : spells tostringbuff class loaded 0 "helo" false).
  { apply (spells_handle tostringbuff class loaded 0 0 words "helo" false
             loaded_handle). reflexivity. }
  split; [exact wordlist_add_makes_known|].
  split; [exact loaded_handle|]. split; [exact Hfalse|].
  exact (add_word_then_spell tostringbuff class loaded 0 0 words "helo"
           wordlist_add_makes_known loaded_handle Hfalse).
Defined.

Lemma additions_keep_spell_witness :
  additions_keep_words class
  ∧ handle class loaded 0 0 words
  ∧ spells tostringbuff class loaded 0 "hello" true
  ∧ ∃ L', after_additions tostringbuff class 0
            [Add_word [TString "helo"]; Add_dic [TString "names.dic"];
             Add_dic [TString "missing.dic"]; Add_word []] loaded = Some L'
          ∧ spells tostringbuff class L' 0 "hello" true.
Proof.
  assert (Htrue : spells tostringbuff class loaded 0 "hello" true).
  { apply (spells_handle tostringbuff class loaded 0 0 words "hello" true
             loaded_handle). reflexivity. }
  split; [exact wordlist_additions_keep_words|].
  split; [exact loaded_handle|]. split; [exact Htrue|].
  exact (additions_keep_spell tostringbuff class loaded 0 0 words "hello" _
           wordlist_additions_keep_words loaded_handle Htrue).
Defined.

Lemma suggest_returns_candidates_witness :
  handle class loaded 0 0 words
  ∧ text_of tostringbuff (TString "hexx") = Some "hexx"
  ∧ ∃ t L' tb,
      call (ls_suggest tostringbuff class) [TUserdata 0; TString "hexx"] loaded
      = Done [TTable t] L'
      ∧ tables loaded !! t = None
      ∧ tables L' !! t = Some tb
      ∧ holds_sequence (TString ∘ chars <$> hs_suggest class words (c_str "hexx")) tb
      ∧ (hs_suggest class words (c_str "hexx") = [] → tb = empty_table)
      ∧ calls L' = calls loaded
                   ++ [call_suggest 0 (c_str "hexx");
                       call_free_list 0 (length (hs_suggest class words (c_str "hexx")))].
Proof.
  split; [exact loaded_handle|]. split; [reflexivity|].
  exact (suggest_returns_candidates tostringbuff class loaded 0 0 words
           (TString "hexx") "hexx" loaded_handle eq_refl).
Defined.

End SpellExamples.

(** * Further properties of the two files *)

(** One step that raises: rewrite with the error of the first call, which
    [tac] establishes. *)
Ltac stop tac := cbv beta iota; erewrite bind_Raise; [| solve [tac]].

(** ** Every outcome of [diff] *)

Section DiffOutcomes.

Import Diff Spell.

Context {Obj : Type}.
Variable tostringbuff : Z → string.
Variable dmp : diff_match_patch.
Implicit Types (L : lua_State Obj) (args : list TValue).

(** The frame of a finished call is gone; the rest of the state stays. *)
Lemma unframed_eq s ts us r (ns : list Obj) cs :
  set_stack (λ _, []) (mkState s ts us r ns cs) = mkState [] ts us r ns cs.
Proof. reflexivity. Qed.

(** With text for its first two arguments, whatever follows them. *)
Lemma diff_run_text args s0 ts us r (ns : list Obj) cs v1 v2 A B :
  args !! 0 = Some v1 → text_of tostringbuff v1 = Some A →
  args !! 1 = Some v2 → text_of tostringbuff v2 = Some B →
  call (diff tostringbuff dmp) args (mkState s0 ts us r ns cs)
  = Done [TTable (length ts)]
      (mkState [] (ts ++ [mkTable (map_seqZ 1 (flat (script dmp A B))) ∅]) us r ns
         (cs ++ [call_diff_match_patch;
                 call_diff_main (until_nul A) (until_nul B) false;
                 call_diff_cleanupSemantic])).
Proof.
  intros H1 T1 H2 T2. unfold call, diff. fields.
  run_eq. fields.
  run ltac:(eapply (luaL_checkstring_text _ _ _ _ _ _ _ 0); eauto).
  run ltac:(eapply (luaL_checkstring_text _ _ _ _ _ _ _ 1);
            [rewrite list_lookup_insert_ne by lia; exact H2 | exact T2]).
  run_eq. run_eq. run_eq. fields.
  run ltac:(apply (diff_loop_run _ _ (length ts) _ ∅ _ _ _ _ []);
            apply list_lookup_middle; reflexivity).
  unfold mret, lua_ret. fields.
  rewrite drop_app_length' by (rewrite length_app; simpl; lia).
  simpl app. rewrite insert_snoc, <- !app_assoc. reflexivity.
Qed.

(** A function that starts by reading two text arguments: the error it
    raises, and the state it raises it in. *)
Lemma two_texts_first (k : cstring → cstring → lua Obj Z) args L :
  ¬ is_text tostringbuff (args !! 0) →
  call (a ← luaL_checkstring tostringbuff 1;
        b ← luaL_checkstring tostringbuff 2; k a b) args L
  = Raise (bad_argument 1 "string") (set_stack (λ _, []) L).
Proof.
  destruct L as [s0 ts us r ns cs]. intros Hbad. unfold call. fields.
  stop ltac:(apply (luaL_checkstring_bad _ _ _ _ _ _ _ 0); exact Hbad).
  reflexivity.
Qed.

Lemma two_texts_second (k : cstring → cstring → lua Obj Z) args L :
  is_text tostringbuff (args !! 0) → ¬ is_text tostringbuff (args !! 1) →
  call (a ← luaL_checkstring tostringbuff 1;
        b ← luaL_checkstring tostringbuff 2; k a b) args L
  = Raise (bad_argument 2 "string") (set_stack (λ _, []) L).
Proof.
  destruct L as [s0 ts us r ns cs]. intros (v & w & Hv & Hw) Hbad.
  unfold call. fields.
  run ltac:(eapply (luaL_checkstring_text _ _ _ _ _ _ _ 0); eauto).
  stop ltac:(apply (luaL_checkstring_bad _ _ _ _ _ _ _ 1);
             rewrite list_lookup_insert_ne by lia; exact Hbad).
  reflexivity.
Qed.

(** [diff] raises in the state that records the construction of its
    engine object, and nothing else. *)
Lemma diff_first args L :
  ¬ is_text tostringbuff (args !! 0) →
  call (diff tostringbuff dmp) args L
  = Raise (bad_argument 1 "string")
      (set_calls (λ cs, cs ++ [call_diff_match_patch]) (set_stack (λ _, []) L)).
Proof.
  intros Hbad. unfold diff. rewrite call_logged.
  etransitivity; [apply two_texts_first; exact Hbad|].
  destruct L. reflexivity.
Qed.

Lemma diff_second args L :
  is_text tostringbuff (args !! 0) → ¬ is_text tostringbuff (args !! 1) →
  call (diff tostringbuff dmp) args L
  = Raise (bad_argument 2 "string")
      (set_calls (λ cs, cs ++ [call_diff_match_patch]) (set_stack (λ _, []) L)).
Proof.
  intros Hok Hbad. unfold diff. rewrite call_logged.
  etransitivity; [apply two_texts_second; assumption|].
  destruct L. reflexivity.
Qed.

End DiffOutcomes.

(** ** Every outcome of the spellcheck functions *)

Section SpellOutcomes.

Import Diff Spell Host.

Variable tostringbuff : Z → string.
Variable H : Hunspell_class.
Implicit Types (L : lua_State (Hunspell H)) (args : list TValue).

Lemma method_first (k : option nat → cstring → lua (Hunspell H) Z) args L :
  ¬ is_handle L (args !! 0) →
  call (hs ← checked_Hunspell H;
        word ← luaL_checkstring tostringbuff 2; k hs word) args L
  = Raise (bad_argument 1 "ta_spell") (set_stack (λ _, []) L).
Proof.
  destruct L as [s0 ts us r ns cs]. intros Hbad. unfold call. fields.
  stop ltac:(apply checked_Hunspell_bad; exact Hbad).
  reflexivity.
Qed.

Lemma method_second (k : option nat → cstring → lua (Hunspell H) Z) args L :
  is_handle L (args !! 0) → ¬ is_text tostringbuff (args !! 1) →
  call (hs ← checked_Hunspell H;
        word ← luaL_checkstring tostringbuff 2; k hs word) args L
  = Raise (bad_argument 2 "string") (set_stack (λ _, []) L).
Proof.
  destruct L as [s0 ts us r ns cs]. intros (u & b & m & Ha & Hb & Hm & Hr) Hbad.
  unfold call. fields.
  run ltac:(eapply checked_Hunspell_run; eauto).
  stop ltac:(apply (luaL_checkstring_bad _ _ _ _ _ _ _ 1); exact Hbad).
  reflexivity.
Qed.

Lemma ls_adddic_third args L :
  is_handle L (args !! 0) → is_text tostringbuff (args !! 1) →
  opt_text_of tostringbuff (args !! 2) = None →
  call (ls_adddic tostringbuff H) args L
  = Raise (bad_argument 3 "string") (set_stack (λ _, []) L).
Proof.
  destruct L as [s0 ts us r ns cs].
  intros (u & b & m & Ha & Hb & Hm & Hr) (v & w & Hv & Hw) Hkey.
  unfold call, ls_adddic. fields.
  run ltac:(eapply checked_Hunspell_run; eauto).
  run ltac:(eapply (luaL_checkstring_text _ _ _ _ _ _ _ 1); eauto).
  stop ltac:(apply (luaL_optstring_bad _ _ _ _ _ _ _ 2);
             rewrite list_lookup_insert_ne by lia; exact Hkey).
  reflexivity.
Qed.

(** The other read order of [add_dic]: the handle is still checked first,
    then the key, then the path. *)
Lemma ls_adddic_key_first_handle args L :
  ¬ is_handle L (args !! 0) →
  call (ls_adddic_key_first tostringbuff H) args L
  = Raise (bad_argument 1 "ta_spell") (set_stack (λ _, []) L).
Proof.
  destruct L as [s0 ts us r ns cs]. intros Hbad.
  unfold call, ls_adddic_key_first. fields.
  stop ltac:(apply checked_Hunspell_bad; exact Hbad).
  reflexivity.
Qed.

Lemma ls_adddic_key_first_key args L :
  is_handle L (args !! 0) → opt_text_of tostringbuff (args !! 2) = None →
  call (ls_adddic_key_first tostringbuff H) args L
  = Raise (bad_argument 3 "string") (set_stack (λ _, []) L).
Proof.
  destruct L as [s0 ts us r ns cs].
  intros (u & b & m & Ha & Hb & Hm & Hr) Hkey.
  unfold call, ls_adddic_key_first. fields.
  run ltac:(eapply checked_Hunspell_run; eauto).
  stop ltac:(apply (luaL_optstring_bad _ _ _ _ _ _ _ 2); exact Hkey).
  reflexivity.
Qed.

Lemma ls_adddic_key_first_path args L :
  is_handle L (args !! 0) → is_Some (opt_text_of tostringbuff (args !! 2)) →
  ¬ is_text tostringbuff (args !! 1) →
  call (ls_adddic_key_first tostringbuff H) args L
  = Raise (bad_argument 2 "string") (set_stack (λ _, []) L).
Proof.
  destruct L as [s0 ts us r ns cs].
  intros (u & b & m & Ha & Hb & Hm & Hr) [key Hkey] Hbad.
  unfold call, ls_adddic_key_first. fields.
  run ltac:(eapply checked_Hunspell_run; eauto).
  run ltac:(apply (luaL_optstring_run _ _ _ _ _ _ _ 2); exact Hkey).
  stop ltac:(apply (luaL_checkstring_bad _ _ _ _ _ _ _ 1);
             destruct key; [rewrite list_lookup_insert_ne by lia|]; exact Hbad).
  reflexivity.
Qed.

Lemma spell_third args L :
  is_text tostringbuff (args !! 0) → is_text tostringbuff (args !! 1) →
  opt_text_of tostringbuff (args !! 2) = None →
  call (spell tostringbuff H) args L
  = Raise (bad_argument 3 "string") (set_stack (λ _, []) L).
Proof.
  destruct L as [s0 ts us r ns cs].
  intros (v1 & w1 & Hv1 & Hw1) (v2 & w2 & Hv2 & Hw2) Hkey.
  unfold call, spell. fields.
  run ltac:(eapply (luaL_checkstring_text _ _ _ _ _ _ _ 0); eauto).
  run ltac:(eapply (luaL_checkstring_text _ _ _ _ _ _ _ 1);
            [rewrite list_lookup_insert_ne by lia; exact Hv2 | exact Hw2]).
  stop ltac:(apply (luaL_optstring_bad _ _ _ _ _ _ _ 2);
             rewrite !list_lookup_insert_ne by lia; exact Hkey).
  reflexivity.
Qed.

(** The four methods, by their place in [lib]. *)
Lemma method_cases (f : lua_CFunction) :
  f ∈ lib.*2 →
  f = F_ls_adddic ∨ f = F_ls_spell ∨ f = F_ls_suggest ∨ f = F_ls_addword.
Proof.
  unfold lib. simpl. rewrite !elem_of_cons, elem_of_nil. tauto.
Qed.

Variable dmp : diff_match_patch.

Lemma method_first_any f args L :
  f ∈ lib.*2 → ¬ is_handle L (args !! 0) →
  call (cfunction tostringbuff dmp H f) args L
  = Raise (bad_argument 1 "ta_spell") (set_stack (λ _, []) L).
Proof.
  intros Hf Hbad.
  destruct (method_cases f Hf) as [-> | [-> | [-> | ->]]];
    apply method_first; exact Hbad.
Qed.

Lemma method_second_any f args L :
  f ∈ lib.*2 → is_handle L (args !! 0) → ¬ is_text tostringbuff (args !! 1) →
  call (cfunction tostringbuff dmp H f) args L
  = Raise (bad_argument 2 "string") (set_stack (λ _, []) L).
Proof.
  intros Hf Hh Hbad.
  destruct (method_cases f Hf) as [-> | [-> | [-> | ->]]];
    apply method_second; assumption.
Qed.

End SpellOutcomes.

(** ** What [diff] does with its arguments and with the state *)

Section DiffProperties.

Import Diff Spell.

Variable tostringbuff : Z → string.
Variable dmp : diff_match_patch.

Lemma script_c_strings A A' B B' :
  until_nul A = until_nul A' → until_nul B = until_nul B' →
  script dmp A B = script dmp A' B'.
Proof. unfold script. intros -> ->. reflexivity. Qed.

(** X1.  [diff] sees of its arguments only the text of the first two, each
    up to its first NUL byte: two calls in the same state whose first and
    second arguments have texts that agree up to the first NUL have the same
    outcome, whether the text came as a string or as a number and whatever
    further arguments follow. *)
Theorem diff_sees_c_strings {Obj} (L : lua_State Obj) args args' v1 v2 v1' v2' A B A' B' :
  args !! 0 = Some v1 → text_of tostringbuff v1 = Some A →
  args !! 1 = Some v2 → text_of tostringbuff v2 = Some B →
  args' !! 0 = Some v1' → text_of tostringbuff v1' = Some A' →
  args' !! 1 = Some v2' → text_of tostringbuff v2' = Some B' →
  until_nul A = until_nul A' → until_nul B = until_nul B' →
  call (diff tostringbuff dmp) args L = call (diff tostringbuff dmp) args' L.
Proof.
  destruct L as [s0 ts us r ns cs]. intros H1 T1 H2 T2 H1' T1' H2' T2' EA EB.
  rewrite (diff_run_text tostringbuff dmp args s0 ts us r ns cs v1 v2 A B)
    by assumption.
  rewrite (diff_run_text tostringbuff dmp args' s0 ts us r ns cs v1' v2' A' B')
    by assumption.
  rewrite (script_c_strings A A' B B' EA EB), EA, EB. reflexivity.
Qed.

(** X2.  A call of [diff] with text for its first two arguments returns one
    value, a table that is new, and changes nothing else of the state: the
    tables there were are as they were, and so are the userdata, the
    registry and the native objects.  Three native steps have run, in this
    order: the constructor of the engine object, [diff_main] on the two C
    strings, and [diff_cleanupSemantic]. *)
Theorem diff_only_adds_a_table {Obj} (L : lua_State Obj) args v1 v2 A B :
  args !! 0 = Some v1 → text_of tostringbuff v1 = Some A →
  args !! 1 = Some v2 → text_of tostringbuff v2 = Some B →
  ∃ L' tb,
    call (diff tostringbuff dmp) args L = Done [TTable (length (tables L))] L'
    ∧ tables L' = tables L ++ [tb]
    ∧ stack L' = []
    ∧ udata L' = udata L ∧ registry L' = registry L ∧ natives L' = natives L
    ∧ calls L' = calls L ++ [call_diff_match_patch;
                             call_diff_main (until_nul A) (until_nul B) false;
                             call_diff_cleanupSemantic].
Proof.
  destruct L as [s0 ts us r ns cs]. intros H1 T1 H2 T2. eexists _, _.
  split; [eapply diff_run_text; eassumption|]. repeat split; reflexivity.
Qed.

Lemma elem_of_flat v ds :
  v ∈ flat ds →
  ∃ d, d ∈ ds ∧ (v = TNumber (Operation_value (operation d))
                 ∨ v = TString (until_nul (text d))).
Proof.
  unfold flat. rewrite list_elem_of_bind. intros (d & Hv & Hd).
  exists d. split; [exact Hd|].
  unfold marshal in Hv. rewrite !elem_of_cons, elem_of_nil in Hv.
  destruct Hv as [->|[->|[]]]; [left|right]; reflexivity.
Qed.

(** X3.  Whatever the engine returns, contract or not, the table [diff]
    returns has exactly the keys 1 .. 2N for the N operations of the script,
    the kind of operation i (from 0) at key 2i+1 and at key 2i+2 its text cut
    at its first NUL byte; no string of the table holds a NUL byte. *)
Theorem diff_table_any_engine {Obj} (L : lua_State Obj) args v1 v2 A B :
  args !! 0 = Some v1 → text_of tostringbuff v1 = Some A →
  args !! 1 = Some v2 → text_of tostringbuff v2 = Some B →
  ∃ t L' tb,
    call (diff tostringbuff dmp) args L = Done [TTable t] L'
    ∧ tables L' !! t = Some tb
    ∧ hash tb = ∅
    ∧ (∀ j : Z, is_Some (array tb !! j)
                ↔ (1 ≤ j ≤ 2 * Z.of_nat (length (script dmp A B)))%Z)
    ∧ (∀ (i : nat) d, script dmp A B !! i = Some d →
         array tb !! (2 * Z.of_nat i + 1)%Z
           = Some (TNumber (Operation_value (operation d)))
         ∧ array tb !! (2 * Z.of_nat i + 2)%Z
           = Some (TString (until_nul (text d))))
    ∧ (∀ (j : Z) s, array tb !! j = Some (TString s) → nul_free s = true).
Proof.
  destruct L as [s0 ts us r ns cs]. intros H1 T1 H2 T2. eexists _, _, _.
  split; [eapply diff_run_text; eassumption|].
  cbn [tables]. split; [apply list_lookup_middle; reflexivity|].
  cbn [hash array]. split; [reflexivity|]. split; [|split].
  - intros j. rewrite lookup_map_seqZ_is_Some, length_flat. lia.
  - intros i d Hi. destruct (lookup_flat (script dmp A B) i d Hi) as [K1 K2].
    split.
    + apply (lookup_map_seqZ_Some_inv (M:=gmap Z) 1) in K1.
      rewrite <- K1. f_equal. lia.
    + apply (lookup_map_seqZ_Some_inv (M:=gmap Z) 1) in K2.
      rewrite <- K2. f_equal. lia.
  - intros j s Hj. apply lookup_map_seqZ_Some in Hj as [_ Hj].
    apply list_elem_of_lookup_2, elem_of_flat in Hj as (d & _ & [Hd|Hd]);
      [discriminate Hd|]. injection Hd as ->. apply until_nul_nul_free.
Qed.

(** X4.  [diff] and the constructor check their first two arguments in
    order: when the first is not text the error names argument 1, when the
    first is text and the second is not it names argument 2.  Either way
    the constructor leaves the state as it found it and has called no native
    code, and [diff] has only constructed its engine object, which the
    declaration of [dmp] does before the first check: neither [diff_main]
    nor [diff_cleanupSemantic] has run. *)
Theorem first_wrong_text_is_reported (H : Hunspell_class)
    (L : lua_State (Hunspell H)) args :
  (¬ is_text tostringbuff (args !! 0) →
   call (diff tostringbuff dmp) args L
   = Raise (bad_argument 1 "string")
       (set_calls (λ cs, cs ++ [call_diff_match_patch]) (set_stack (λ _, []) L))
   ∧ call (spell tostringbuff H) args L
     = Raise (bad_argument 1 "string") (set_stack (λ _, []) L))
  ∧ (is_text tostringbuff (args !! 0) → ¬ is_text tostringbuff (args !! 1) →
     call (diff tostringbuff dmp) args L
     = Raise (bad_argument 2 "string")
         (set_calls (λ cs, cs ++ [call_diff_match_patch]) (set_stack (λ _, []) L))
     ∧ call (spell tostringbuff H) args L
       = Raise (bad_argument 2 "string") (set_stack (λ _, []) L)).
Proof.
  split.
  - intros Hbad. split; [apply diff_first|apply two_texts_first]; exact Hbad.
  - intros Hok Hbad. split; [apply diff_second|apply two_texts_second];
      assumption.
Qed.

End DiffProperties.

(** ** Errors and the optional key *)

Section SpellErrors.

Import Diff Spell Host.

Variable tostringbuff : Z → string.
Variable dmp : diff_match_patch.
Variable H : Hunspell_class.
Implicit Types (L : lua_State (Hunspell H)) (args : list TValue).

(** X5.  Each of the four methods checks the handle before anything else:
    a first argument that is not a userdata of the registered type gives the
    error for argument 1, whatever the other arguments are.  After a good
    handle, a second argument that is not text gives the error for argument
    2 in [spell], [suggest] and [add_word], and in [add_dic] when the key is
    acceptable.  When the path and the key of [add_dic] are both wrong the
    error depends on the order in which the two arguments of the native call
    are read, which C++ leaves open: argument 2 when the path is read first,
    argument 3 when the key is.  In every case the call leaves the state as
    it found it. *)
Theorem handle_is_checked_first f args L :
  f ∈ lib.*2 →
  (¬ is_handle L (args !! 0) →
   call (cfunction tostringbuff dmp H f) args L
   = Raise (bad_argument 1 "ta_spell") (set_stack (λ _, []) L)
   ∧ call (ls_adddic_key_first tostringbuff H) args L
     = Raise (bad_argument 1 "ta_spell") (set_stack (λ _, []) L))
  ∧ (is_handle L (args !! 0) → ¬ is_text tostringbuff (args !! 1) →
     (f ≠ F_ls_adddic →
      call (cfunction tostringbuff dmp H f) args L
      = Raise (bad_argument 2 "string") (set_stack (λ _, []) L))
     ∧ (is_Some (opt_text_of tostringbuff (args !! 2)) →
        call (ls_adddic tostringbuff H) args L
        = Raise (bad_argument 2 "string") (set_stack (λ _, []) L)
        ∧ call (ls_adddic_key_first tostringbuff H) args L
          = Raise (bad_argument 2 "string") (set_stack (λ _, []) L))
     ∧ (opt_text_of tostringbuff (args !! 2) = None →
        call (ls_adddic tostringbuff H) args L
        = Raise (bad_argument 2 "string") (set_stack (λ _, []) L)
        ∧ call (ls_adddic_key_first tostringbuff H) args L
          = Raise (bad_argument 3 "string") (set_stack (λ _, []) L))).
Proof.
  intros Hf. split.
  - intros Hbad. split.
    + apply method_first_any; assumption.
    + apply ls_adddic_key_first_handle. exact Hbad.
  - intros Hh Hbad. split; [|split].
    + intros _. apply method_second_any; assumption.
    + intros Hkey. split.
      * apply method_second; assumption.
      * apply ls_adddic_key_first_path; assumption.
    + intros Hkey. split.
      * apply method_second; assumption.
      * apply ls_adddic_key_first_key; assumption.
Qed.

(** X6.  The optional key is checked when it is there: a third argument
    that is neither absent, nil, a string nor a number makes the constructor
    (after two text paths) and [add_dic] (after a handle and a text path)
    raise the error for argument 3, with the state as it was and no native
    call made. *)
Theorem wrong_key_is_rejected args L :
  opt_text_of tostringbuff (args !! 2) = None →
  (is_text tostringbuff (args !! 0) → is_text tostringbuff (args !! 1) →
   call (spell tostringbuff H) args L
   = Raise (bad_argument 3 "string") (set_stack (λ _, []) L))
  ∧ (is_handle L (args !! 0) → is_text tostringbuff (args !! 1) →
     call (ls_adddic tostringbuff H) args L
     = Raise (bad_argument 3 "string") (set_stack (λ _, []) L)).
Proof.
  intros Hkey. split; intros H1 H2.
  - apply spell_third; assumption.
  - apply ls_adddic_third; assumption.
Qed.

Lemma handle_is_handle L u p o : handle H L u p o → is_handle L (Some (TUserdata u)).
Proof.
  intros (m & Hu & Hr & _). exists u, (mkUdata (Some p) (Some m)), m.
  repeat split; assumption.
Qed.

(** X7.  A nil key is no key: once the module is open the constructor has
    the same outcome with a third argument nil as without a third argument,
    and so has [add_dic] on a handle, whatever the other arguments are. *)
Theorem nil_key_is_no_key L v1 v2 m u p o :
  (registry L !! "ta_spell" = Some (TTable m) →
   call (spell tostringbuff H) [v1; v2; TNil] L
   = call (spell tostringbuff H) [v1; v2] L)
  ∧ (handle H L u p o →
     call (ls_adddic tostringbuff H) [TUserdata u; v2; TNil] L
     = call (ls_adddic tostringbuff H) [TUserdata u; v2] L).
Proof.
  destruct L as [s0 ts us r ns cs]. split.
  - cbn [registry]. intros Hr.
    destruct (is_text_dec tostringbuff (Some v1)) as [(x1 & A & E1 & T1)|B1].
    + destruct (is_text_dec tostringbuff (Some v2)) as [(x2 & B & E2 & T2)|B2].
      * injection E1 as <-. injection E2 as <-.
        erewrite !spell_run; eauto; reflexivity.
      * transitivity (@Raise (Hunspell H) (list TValue) (bad_argument 2 "string")
                        (set_stack (λ _, []) (mkState s0 ts us r ns cs)));
          [|symmetry]; apply two_texts_second; try exact B2;
          exists x1, A; split; assumption.
    + transitivity (@Raise (Hunspell H) (list TValue) (bad_argument 1 "string")
                      (set_stack (λ _, []) (mkState s0 ts us r ns cs)));
        [|symmetry]; apply two_texts_first; exact B1.
  - intros Hh. pose proof (handle_is_handle _ _ _ _ Hh) as Hi.
    destruct Hh as (m' & Hu & Hr & Hp). cbn [udata registry natives] in Hu, Hr, Hp.
    destruct (is_text_dec tostringbuff (Some v2)) as [(x2 & B & E2 & T2)|B2].
    + injection E2 as <-.
      erewrite !ls_adddic_run; eauto; reflexivity.
    + transitivity (@Raise (Hunspell H) (list TValue) (bad_argument 2 "string")
                      (set_stack (λ _, []) (mkState s0 ts us r ns cs)));
        [|symmetry]; apply method_second; assumption.
Qed.

End SpellErrors.

(** ** Handles and objects across calls *)

Section SpellSafety.

Import Diff Spell Host.

Variable tostringbuff : Z → string.
Variable dmp : diff_match_patch.
Variable H : Hunspell_class.
Implicit Types (L : lua_State (Hunspell H)) (args : list TValue).

Ltac same_blocks := split; [reflexivity|]; split; [reflexivity|].

Lemma spell_first args L :
  ¬ is_text tostringbuff (args !! 0) →
  call (spell tostringbuff H) args L
  = Raise (bad_argument 1 "string") (set_stack (λ _, []) L).
Proof. apply two_texts_first. Qed.

Lemma spell_second args L :
  is_text tostringbuff (args !! 0) → ¬ is_text tostringbuff (args !! 1) →
  call (spell tostringbuff H) args L
  = Raise (bad_argument 2 "string") (set_stack (λ _, []) L).
Proof. apply two_texts_second. Qed.

(** A method called on a handle ends, finished or raised, in a state with
    the same blocks and registry, in which at most the handle's object has
    been replaced. *)
Lemma method_outcome f args L u p o :
  f ∈ lib.*2 → handle H L u p o →
  ∃ L', ends_in (call (cfunction tostringbuff dmp H f) (TUserdata u :: args) L) L'
        ∧ udata L' = udata L ∧ registry L' = registry L
        ∧ (natives L' = natives L ∨ ∃ o', natives L' = <[p := o']> (natives L))
        ∧ (f = F_ls_spell ∨ f = F_ls_suggest → natives L' = natives L).
Proof.
  intros Hf Hh. pose proof (handle_is_handle _ _ _ _ _ Hh) as Hi.
  destruct Hh as (m & Hu & Hr & Hp). destruct L as [s0 ts us r ns cs].
  cbn [udata registry natives] in *.
  destruct (is_text_dec tostringbuff (args !! 0)) as [(v & w & Hv & Hw)|Hbad].
  - destruct (method_cases f Hf) as [-> | [-> | [-> | ->]]]; cbn [cfunction].
    + destruct (opt_text_of tostringbuff (args !! 1)) as [key|] eqn:Hkey.
      * erewrite (ls_adddic_run tostringbuff H s0 (TUserdata u :: args)); eauto;
          try reflexivity.
        eexists. split; [reflexivity|]. cbn. same_blocks.
        split; [right; eexists; reflexivity|]. intros [?|?]; discriminate.
      * rewrite ls_adddic_third; [| exact Hi | exists v, w; split; assumption
                                  | exact Hkey].
        eexists. split; [reflexivity|]. cbn. same_blocks.
        split; [left; reflexivity|]. intros _; reflexivity.
    + erewrite (ls_spell_run tostringbuff H s0 (TUserdata u :: args)); eauto;
        try reflexivity.
      eexists. split; [reflexivity|]. cbn. same_blocks.
      split; [left; reflexivity|]. intros _; reflexivity.
    + erewrite (ls_suggest_run tostringbuff H s0 (TUserdata u :: args)); eauto;
        try reflexivity.
      eexists. split; [reflexivity|]. cbn. same_blocks.
      split; [left; reflexivity|]. intros _; reflexivity.
    + erewrite (ls_addword_run tostringbuff H s0 (TUserdata u :: args)); eauto;
        try reflexivity.
      eexists. split; [reflexivity|]. cbn. same_blocks.
      split; [right; eexists; reflexivity|]. intros [?|?]; discriminate.
  - rewrite method_second_any; [| exact Hf | exact Hi | exact Hbad].
    eexists. split; [reflexivity|]. cbn. same_blocks.
    split; [left; reflexivity|]. intros _; reflexivity.
Qed.

(** X8.  A method called on a handle, with any further arguments, touches
    no object but the handle's own: the call finishes or raises, never
    more, and then every other address holds what it held and every handle
    on another object is a handle on that same object as before. *)
Theorem methods_touch_one_object f args L u p o :
  f ∈ lib.*2 → handle H L u p o →
  ∃ L', ends_in (call (cfunction tostringbuff dmp H f) (TUserdata u :: args) L) L'
        ∧ (∀ q, q ≠ p → natives L' !! q = natives L !! q)
        ∧ (∀ u' p' o', p' ≠ p → handle H L u' p' o' → handle H L' u' p' o').
Proof.
  intros Hf Hh.
  destruct (method_outcome f args L u p o Hf Hh) as (L' & Hend & Hu & Hr & Hn & _).
  exists L'. split; [exact Hend|].
  assert (Hother : ∀ q, q ≠ p → natives L' !! q = natives L !! q).
  { intros q Hq. destruct Hn as [->|[o' ->]]; [reflexivity|].
    apply list_lookup_insert_ne. congruence. }
  split; [exact Hother|].
  intros u' p' o' Hp' (m & Hu' & Hr' & Hn'). exists m.
  rewrite Hu, Hr, (Hother p' Hp'). repeat split; assumption.
Qed.

Lemma grows_refl L args : grows L (set_stack (λ _, args) L).
Proof.
  destruct L. repeat split; cbn; [exists []; symmetry; apply app_nil_r|auto].
Qed.

Lemma grows_trans L1 L2 L3 : grows L1 L2 → grows L2 L3 → grows L1 L3.
Proof.
  intros (R1 & [m1 U1] & N1) (R2 & [m2 U2] & N2). repeat split.
  - congruence.
  - exists (m1 ++ m2). rewrite U2, U1, app_assoc. reflexivity.
  - auto.
Qed.

Lemma grows_handle L L' u p o :
  grows L L' → handle H L u p o → ∃ o', handle H L' u p o'.
Proof.
  intros (R & [more U] & N) (m & Hu & Hr & Hp).
  destruct (N p (ex_intro _ o Hp) ) as [o' Ho']. exists o', m.
  rewrite U, R. repeat split; [apply lookup_app_l_Some; exact Hu|exact Hr|exact Ho'].
Qed.

Lemma sound_same_blocks L L' :
  sound H L → udata L' = udata L → registry L' = registry L →
  (∀ q, is_Some (natives L !! q) → is_Some (natives L' !! q)) →
  sound H L'.
Proof.
  intros [Hopen Hblocks] U R N. split; [rewrite R; exact Hopen|].
  intros u b m Hu Hm Hr. rewrite U in Hu. rewrite R in Hr.
  destruct (Hblocks u b m Hu Hm Hr) as (p & o & Hp & Ho).
  destruct (N p (ex_intro _ o Ho)) as [o' Ho']. exists p, o'. split; assumption.
Qed.

Lemma sound_unframed L : sound H L → sound H (set_stack (λ _, []) L).
Proof. intros HL. apply (sound_same_blocks L); destruct L; cbn; auto. Qed.

Lemma method_call_keeps_sound f args L :
  f ∈ lib.*2 → sound H L →
  ∃ L', ends_in (call (cfunction tostringbuff dmp H f) args L) L'
        ∧ sound H L' ∧ grows L L'.
Proof.
  intros Hf HL. pose proof HL as [_ Hblocks].
  destruct (is_handle_dec L (args !! 0)) as [(u & b & m & Ha & Hb & Hm & Hr)|Hbad].
  - destruct (Hblocks u b m Hb Hm Hr) as (p & o & Hp & Ho).
    destruct b as [pl mt]. cbn in Hp, Hm. subst pl mt.
    destruct args as [|a args]; [discriminate Ha|]. injection Ha as ->.
    assert (Hh : handle H L u p o) by (exists m; repeat split; assumption).
    destruct (method_outcome f args L u p o Hf Hh) as (L' & Hend & HU & HR & HN & _).
    exists L'. split; [exact Hend|].
    assert (N : ∀ q, is_Some (natives L !! q) → is_Some (natives L' !! q)).
    { intros q Hq. destruct HN as [->|[o' ->]]; [exact Hq|].
      apply lookup_lt_is_Some. rewrite length_insert.
      apply lookup_lt_is_Some. exact Hq. }
    split; [apply (sound_same_blocks L); assumption|].
    split; [exact HR|]. split; [|exact N].
    exists []. rewrite HU. symmetry. apply app_nil_r.
  - exists (set_stack (λ _, []) L). split.
    { rewrite method_first_any; [reflexivity|exact Hf|exact Hbad]. }
    split; [apply sound_unframed; exact HL|apply grows_refl].
Qed.

(** One call of a registered function in a sound state. *)
Lemma call_keeps_sound f args L :
  sound H L →
  ∃ L', ends_in (call (cfunction tostringbuff dmp H f) args L) L'
        ∧ sound H L' ∧ grows L L'.
Proof.
  intros HL. pose proof HL as [[m Hopen] Hblocks].
  destruct f; cbn [cfunction].
  - (* diff *)
    destruct (is_text_dec tostringbuff (args !! 0)) as [(v1 & A & E1 & T1)|B1].
    + destruct (is_text_dec tostringbuff (args !! 1)) as [(v2 & B & E2 & T2)|B2].
      * destruct L as [s0 ts us r ns cs].
        erewrite diff_run_text by eassumption.
        eexists. split; [reflexivity|]. split.
        { apply (sound_same_blocks _ _ HL); cbn; auto. }
        repeat split; cbn; [exists []; symmetry; apply app_nil_r|auto].
      * destruct L as [s0 ts us r ns cs]. eexists. split.
        { rewrite diff_second;
            [reflexivity|exists v1, A; split; assumption|exact B2]. }
        split; [apply (sound_same_blocks _ _ HL); cbn; auto|].
        repeat split; cbn; [exists []; symmetry; apply app_nil_r|auto].
    + destruct L as [s0 ts us r ns cs]. eexists. split.
      { rewrite diff_first; [reflexivity|exact B1]. }
      split; [apply (sound_same_blocks _ _ HL); cbn; auto|].
      repeat split; cbn; [exists []; symmetry; apply app_nil_r|auto].
  - (* spell *)
    destruct (is_text_dec tostringbuff (args !! 0)) as [(v1 & A & E1 & T1)|B1].
    + destruct (is_text_dec tostringbuff (args !! 1)) as [(v2 & B & E2 & T2)|B2].
      * destruct (opt_text_of tostringbuff (args !! 2)) as [key|] eqn:Hkey.
        -- destruct L as [s0 ts us r ns cs]. cbn [registry udata natives] in *.
           erewrite spell_run by eassumption.
           eexists. split; [reflexivity|]. split.
           ++ split; [exists m; exact Hopen|]. cbn [udata registry natives].
              intros u b m' Hu Hm Hr.
              apply lookup_app_Some in Hu as [Hu|[_ Hu]].
              ** destruct (Hblocks u b m' Hu Hm Hr) as (p & o & Hp & Ho).
                 exists p, o. split; [exact Hp|].
                 apply lookup_app_l_Some. exact Ho.
              ** apply list_lookup_singleton_Some in Hu as [_ <-].
                 eexists _, _. split; [reflexivity|].
                 apply list_lookup_middle. reflexivity.
           ++ repeat split; cbn; [eexists; reflexivity|].
              intros q [o Ho]. exists o. apply lookup_app_l_Some. exact Ho.
        -- exists (set_stack (λ _, []) L). split.
           { rewrite spell_third;
               [reflexivity|exists v1, A; split; assumption
               |exists v2, B; split; assumption|exact Hkey]. }
           split; [apply sound_unframed; exact HL|apply grows_refl].
      * exists (set_stack (λ _, []) L). split.
        { rewrite spell_second;
            [reflexivity|exists v1, A; split; assumption|exact B2]. }
        split; [apply sound_unframed; exact HL|apply grows_refl].
    + exists (set_stack (λ _, []) L). split.
      { rewrite spell_first; [reflexivity|exact B1]. }
      split; [apply sound_unframed; exact HL|apply grows_refl].
  - apply (method_call_keeps_sound F_ls_adddic); [unfold lib; set_solver|exact HL].
  - apply (method_call_keeps_sound F_ls_spell); [unfold lib; set_solver|exact HL].
  - apply (method_call_keeps_sound F_ls_suggest); [unfold lib; set_solver|exact HL].
  - apply (method_call_keeps_sound F_ls_addword); [unfold lib; set_solver|exact HL].
Qed.

Lemma run_calls_sound l : ∀ L,
  sound H L →
  ∃ L', run_calls tostringbuff dmp H l L = Some L' ∧ sound H L' ∧ grows L L'.
Proof.
  induction l as [|[f args] l IH]; intros L HL.
  - exists L. split; [reflexivity|]. split; [exact HL|].
    destruct L. apply (grows_refl (mkState _ _ _ _ _ _)).
  - destruct (call_keeps_sound f args L HL) as (L1 & Hend & HL1 & G1).
    destruct (IH L1 HL1) as (L2 & Hrun & HL2 & G2).
    exists L2. split; [|split; [exact HL2|eapply grows_trans; eassumption]].
    cbn [run_calls].
    destruct (call (cfunction tostringbuff dmp H f) args L) as [res Lx|e Lx|];
      cbn [ends_in] in Hend; [subst Lx; exact Hrun|subst Lx; exact Hrun|].
    contradiction.
Qed.

(** X9.  In a state where the module is open and every userdata of the
    registered type points to an object, any run of calls to the six
    registered functions, with any arguments at all, stays within defined
    behaviour: every call finishes or raises an argument error, no call
    follows a pointer to nothing, the state is again of that kind, and every
    handle there was is still a handle at the same address. *)
Theorem calls_never_dangle l L :
  sound H L →
  ∃ L', run_calls tostringbuff dmp H l L = Some L'
        ∧ sound H L'
        ∧ ∀ u p o, handle H L u p o → ∃ o', handle H L' u p o'.
Proof.
  intros HL. destruct (run_calls_sound l L HL) as (L' & Hrun & HL' & G).
  exists L'. split; [exact Hrun|]. split; [exact HL'|].
  intros u p o Hh. exact (grows_handle L L' u p o G Hh).
Qed.

End SpellSafety.

(** ** Opening the module, and what a handle offers *)

Section SpellModule.

Import Diff Spell Host.

Variable tostringbuff : Z → string.
Variable dmp : diff_match_patch.
Variable H : Hunspell_class.
Implicit Types (L : lua_State (Hunspell H)) (args : list TValue).

(** Opening the module when the name is taken by a table: the methods and
    [__index] are written into that table. *)
Lemma luaopen_spell_again s0 args ts us r ns cs m tb :
  r !! "ta_spell" = Some (TTable m) → ts !! m = Some tb →
  call (luaopen_spell H) args (mkState s0 ts us r ns cs)
  = Done [TFunction F_spell]
      (mkState []
         (<[m := mkTable (array tb)
                   (<["__index" := TTable m]> (with_funcs lib (hash tb)))]> ts)
         us r ns cs).
Proof.
  intros Hr Hm. unfold call, luaopen_spell. fields.
  assert (Hlen : m < length ts) by (eapply lookup_lt_Some; eauto).
  run ltac:(unfold luaL_newmetatable; fields; rewrite Hr;
            run ltac:(apply push_run); reflexivity).
  run ltac:(apply luaL_setfuncs_run; exact Hm).
  run ltac:(unfold lua_pushvalue;
            run ltac:(rewrite (index2value_neg args (TTable m) []); reflexivity);
            apply push_run).
  rewrite <- app_assoc. simpl app.
  run ltac:(apply lua_setfield_top; apply list_lookup_insert_eq; exact Hlen).
  rewrite list_insert_insert_eq.
  run_eq. unfold mret, lua_ret. fields.
  rewrite drop_app_length' by (rewrite length_app; simpl; lia).
  reflexivity.
Qed.

Lemma ta_spell_methods_again m :
  <["__index" := TTable m]> (with_funcs lib (ta_spell_methods m))
  = ta_spell_methods m.
Proof.
  unfold ta_spell_methods, with_funcs, lib. simpl.
  apply map_eq. intros k. rewrite !lookup_insert.
  repeat case_decide; reflexivity.
Qed.

(** X10.  Opening the module again, by whichever entry point, does no
    harm: when the name is registered to a table, the call returns the
    constructor and leaves userdata, registry, native objects and every
    other table as they were, so every handle stays a handle; and when the
    registered table is as the first opening built it, the state is not
    changed at all. *)
Theorem reopening_keeps_handles e args L m tb :
  e ∈ [luaopen_spell H; luaopen_spellcheck_spell H;
       luaopen_spellcheck_spell64 H; luaopen_spellcheck_spellosx H] →
  registry L !! "ta_spell" = Some (TTable m) → tables L !! m = Some tb →
  ∃ L',
    call e args L = Done [TFunction F_spell] L'
    ∧ udata L' = udata L ∧ registry L' = registry L
    ∧ natives L' = natives L ∧ calls L' = calls L
    ∧ (∀ t, t ≠ m → tables L' !! t = tables L !! t)
    ∧ (∀ u p o, handle H L u p o → handle H L' u p o)
    ∧ (hash tb = ta_spell_methods m → L' = set_stack (λ _, []) L).
Proof.
  intros He Hr Hm.
  assert (e = luaopen_spell H) as ->.
  { rewrite !elem_of_cons, elem_of_nil in He.
    destruct He as [-> | [-> | [-> | [-> | []]]]]; reflexivity. }
  destruct L as [s0 ts us r ns cs]. cbn [registry tables] in Hr, Hm.
  eexists. split; [apply luaopen_spell_again; eassumption|].
  cbn [udata registry natives calls tables].
  do 4 (split; [reflexivity|]). split; [|split].
  - intros t Ht. apply list_lookup_insert_ne. congruence.
  - intros u p o Hh. exact Hh.
  - intros Hbuilt. unfold set_stack. cbn [stack tables udata registry natives calls].
    f_equal. rewrite Hbuilt, ta_spell_methods_again, <- Hbuilt.
    destruct tb. apply list_insert_id. exact Hm.
Qed.

(** X11.  What a handle offers: with the metatable as [luaopen_spell] built
    it, indexing a handle by the name of a method gives that method's
    function, for each of the four of [lib]; no name other than those four,
    [__index] and [__name] gives anything, so there is no [__gc], no
    [close] and no way to reach the pointer. *)
Theorem handle_offers_the_methods L u p o m tb :
  handle H L u p o →
  registry L !! "ta_spell" = Some (TTable m) →
  tables L !! m = Some tb → hash tb = ta_spell_methods m →
  (∀ name f, (name, f) ∈ lib → index_udata H L u name = Some (TFunction f))
  ∧ (∀ name, name ∉ ["add_dic"; "spell"; "suggest"; "add_word"; "__index"; "__name"] →
       index_udata H L u name = None).
Proof.
  intros (m' & Hu & Hr' & _) Hr Hm Hbuilt.
  assert (m' = m) as -> by congruence.
  assert (Hidx : ∀ name, index_udata H L u name = ta_spell_methods m !! name).
  { intros name. unfold index_udata. rewrite Hu. cbn. rewrite Hm. cbn.
    rewrite Hbuilt. unfold ta_spell_methods at 1. rewrite lookup_insert_eq.
    rewrite Hm. cbn. rewrite Hbuilt. reflexivity. }
  split.
  - intros name f Hin. rewrite Hidx.
    unfold lib in Hin. rewrite !elem_of_cons, elem_of_nil in Hin.
    unfold ta_spell_methods, with_funcs, lib. simpl.
    destruct Hin as [Hin | [Hin | [Hin | [Hin | []]]]]; injection Hin as -> ->;
      rewrite !lookup_insert; repeat case_decide; congruence.
  - intros name Hout. rewrite Hidx.
    rewrite !not_elem_of_cons in Hout.
    unfold ta_spell_methods, with_funcs, lib. simpl.
    rewrite !lookup_insert_ne by (intros <-; tauto). apply lookup_empty.
Qed.

(** X12.  A session from the start: where the name is free, opening the
    module, constructing a handle from two paths, adding a word through the
    handle and then checking that word give, in this order, the constructor,
    a handle, nothing, and one boolean, which is true exactly when the spell
    checker's [spell] is non-zero on the object its constructor made and its
    [add] then changed; the native calls made are those three, in order. *)
Theorem session_open_construct_add_spell L aff dic w :
  registry L !! "ta_spell" = None →
  let o := hs_new H (c_str aff) (c_str dic) None in
  let o' := (hs_add H o (c_str w)).1 in
  ∃ L1 L2 L3 L4 u p,
    call (luaopen_spell H) [] L = Done [TFunction F_spell] L1
    ∧ call (cfunction tostringbuff dmp H F_spell) [TString aff; TString dic] L1
      = Done [TUserdata u] L2
    ∧ index_udata H L2 u "add_word" = Some (TFunction F_ls_addword)
    ∧ call (cfunction tostringbuff dmp H F_ls_addword) [TUserdata u; TString w] L2
      = Done [] L3
    ∧ index_udata H L3 u "spell" = Some (TFunction F_ls_spell)
    ∧ call (cfunction tostringbuff dmp H F_ls_spell) [TUserdata u; TString w] L3
      = Done [TBoolean (negb (hs_spell H o' (c_str w) =? 0)%Z)] L4
    ∧ handle H L4 u p o'
    ∧ calls L4 = calls L ++ [call_Hunspell (c_str aff) (c_str dic) None;
                             call_add p (c_str w); call_spell p (c_str w)].
Proof.
  destruct L as [s0 ts us r ns cs]. cbn [registry]. intros Hr. cbv zeta.
  eexists _, _, _, _, (length us), (length ns).
  split; [apply luaopen_spell_run; exact Hr|].
  split.
  { cbn [cfunction]. eapply spell_run; try reflexivity. apply lookup_insert_eq. }
  assert (Hidx : ∀ ns' cs' name,
    index_udata H (mkState [] (ts ++ [mkTable ∅ (ta_spell_methods (length ts))])
                     (us ++ [mkUdata (Some (length ns)) (Some (length ts))])
                     (<["ta_spell" := TTable (length ts)]> r) ns' cs') (length us) name
    = ta_spell_methods (length ts) !! name).
  { intros ns' cs' name. unfold index_udata. cbn [udata tables].
    rewrite list_lookup_middle by reflexivity. cbn.
    rewrite list_lookup_middle by reflexivity. cbn.
    rewrite lookup_insert_eq.
    rewrite list_lookup_middle by reflexivity. reflexivity. }
  split; [rewrite Hidx; reflexivity|].
  split.
  { cbn [cfunction].
    eapply (ls_addword_run tostringbuff H _ [TUserdata (length us); TString w]);
      try reflexivity.
    - apply list_lookup_middle. reflexivity.
    - apply lookup_insert_eq.
    - apply list_lookup_middle. reflexivity. }
  rewrite insert_snoc.
  split; [rewrite Hidx; reflexivity|].
  split.
  { cbn [cfunction].
    eapply (ls_spell_run tostringbuff H _ [TUserdata (length us); TString w]);
      try reflexivity.
    - apply list_lookup_middle. reflexivity.
    - apply lookup_insert_eq.
    - apply list_lookup_middle. reflexivity. }
  split.
  - exists (length ts). cbn [udata registry natives].
    split; [apply list_lookup_middle; reflexivity|].
    split; [apply lookup_insert_eq|apply list_lookup_middle; reflexivity].
  - cbn [calls]. rewrite <- !app_assoc. reflexivity.
Qed.

(** Writing a field of the table at any index that names one, with the
    value on top of the stack. *)
Lemma lua_setfield_at idx k s v t tb ts us r (ns : list (Hunspell H)) cs :
  index2value (mkState (s ++ [v]) ts us r ns cs) idx = Some (TTable t) →
  ts !! t = Some tb →
  lua_setfield idx k (mkState (s ++ [v]) ts us r ns cs)
  = Done tt (mkState s (<[t := mkTable (array tb) (store k v (hash tb))]> ts)
               us r ns cs).
Proof.
  intros Hidx Ht. unfold lua_setfield.
  run ltac:(unfold table_at; rewrite Hidx; reflexivity).
  run ltac:(apply pop_snoc).
  unfold update_table. fields. rewrite Ht. reflexivity.
Qed.

(** A slot keeps its index under a push when a relative index is moved
    down by one. *)
Lemma index2value_pushed (n : Z) s v x ts us r (ns : list (Hunspell H)) cs :
  index2value (mkState s ts us r ns cs) n = Some x →
  index2value (mkState (s ++ [v]) ts us r ns cs)
              (if (0 <? n)%Z then n else (n - 1)%Z) = Some x.
Proof.
  unfold index2value, lua_absindex, lua_gettop. cbn [stack].
  rewrite length_app. cbn [length].
  destruct (0 <? n)%Z eqn:Hn.
  - rewrite Hn. destruct (1 <=? n)%Z; [|discriminate].
    intros Hs. apply lookup_app_l_Some. exact Hs.
  - apply Z.ltb_ge in Hn.
    replace (0 <? n - 1)%Z with false by (symmetry; apply Z.ltb_ge; lia).
    replace (Z.of_nat (length s + 1) + (n - 1) + 1)%Z
      with (Z.of_nat (length s) + n + 1)%Z by lia.
    destruct (1 <=? Z.of_nat (length s) + n + 1)%Z; [|discriminate].
    intros Hs. apply lookup_app_l_Some. exact Hs.
Qed.

(** X13.  The macro [l_setcfunction(l, n, name, f)] stores the function
    under the name in the table that index [n] names when the macro is
    reached, for an absolute index as for one relative to the top, and leaves
    the stack as it was; the other fields and all other tables stay. *)
Theorem l_setcfunction_sets_field (n : Z) name f L t tb :
  index2value L n = Some (TTable t) → tables L !! t = Some tb →
  l_setcfunction H n name f L
  = Done tt (set_tables
               (λ ts, <[t := mkTable (array tb) (<[name := TFunction f]> (hash tb))]> ts)
               L).
Proof.
  destruct L as [s ts us r ns cs]. cbn [tables]. intros Hidx Ht.
  unfold l_setcfunction.
  run ltac:(apply push_run).
  rewrite (lua_setfield_at _ _ _ _ t tb);
    [reflexivity|apply index2value_pushed; exact Hidx|exact Ht].
Qed.

(** X14.  On a handle and a word that is text, [add_word] cannot fail: it
    hands the word, as a C string, to the spell checker's [add] on the
    handle's object, keeps the object as that call leaves it, drops the
    [int] the call returns and returns nothing, whatever that [int] is; it
    changes nothing else. *)
Theorem add_word_drops_status L args u p o v w :
  handle H L u p o →
  args !! 0 = Some (TUserdata u) →
  args !! 1 = Some v → text_of tostringbuff v = Some w →
  ∃ L',
    call (ls_addword tostringbuff H) args L = Done [] L'
    ∧ handle H L' u p (hs_add H o (c_str w)).1
    ∧ natives L' = <[p := (hs_add H o (c_str w)).1]> (natives L)
    ∧ calls L' = calls L ++ [call_add p (c_str w)]
    ∧ tables L' = tables L ∧ udata L' = udata L ∧ registry L' = registry L.
Proof.
  destruct L as [s0 ts us r ns cs]. intros (m & Hu & Hr & Hp) H1 H2 T2.
  cbn [udata registry natives] in Hu, Hr, Hp.
  eexists. split; [eapply ls_addword_run; eauto|].
  cbn [udata natives calls registry tables].
  split; [|repeat split; reflexivity].
  exists m. cbn [udata natives registry].
  repeat split; try assumption.
  apply list_lookup_insert_eq. eapply lookup_lt_Some; eauto.
Qed.

End SpellModule.

(** ** The further properties on concrete input *)

Section FurtherExamples.

Import Diff Spell Host WordList.

Local Abbreviation words := ["hello"; "help"; "world"].
Local Abbreviation ta_spell := (mkTable ∅ (ta_spell_methods 0)).

Lemma loaded_sound : sound class loaded.
Proof.
  split; [exists 0; reflexivity|].
  intros u b m Hu _ _. exists 0, words.
  change (udata loaded) with [mkUdata (Some 0) (Some 0)] in Hu.
  destruct u as [|u]; [|destruct u; discriminate Hu].
  injection Hu as <-. split; reflexivity.
Qed.

Lemma not_text_table t : ¬ is_text tostringbuff (Some (TTable t)).
Proof. intros (v & w & Hv & Hw). injection Hv as <-. discriminate Hw. Qed.

Lemma diff_sees_c_strings_witness :
  call (diff tostringbuff PrefixDiff.engine) [TNumber 12; TString a_nul_b; TTable 3]
       (fresh_state (Obj:=unit))
  = call (diff tostringbuff PrefixDiff.engine) [TString "12"; TString "a"]
         fresh_state.
Proof.
  apply (diff_sees_c_strings tostringbuff PrefixDiff.engine fresh_state
           [TNumber 12; TString a_nul_b; TTable 3] [TString "12"; TString "a"]
           (TNumber 12) (TString a_nul_b) (TString "12") (TString "a")
           "12" a_nul_b "12" "a"); reflexivity.
Defined.

Lemma diff_only_adds_a_table_witness :
  ∃ L' tb,
    call (diff tostringbuff PrefixDiff.engine) [TString "hello"; TNumber 7] loaded
    = Done [TTable (length (tables loaded))] L'
    ∧ tables L' = tables loaded ++ [tb]
    ∧ stack L' = []
    ∧ udata L' = udata loaded ∧ registry L' = registry loaded
    ∧ natives L' = natives loaded
    ∧ calls L' = calls loaded ++ [call_diff_match_patch;
                                  call_diff_main (until_nul "hello") (until_nul "7") false;
                                  call_diff_cleanupSemantic].
Proof.
  apply (diff_only_adds_a_table tostringbuff PrefixDiff.engine loaded
           [TString "hello"; TNumber 7] (TString "hello") (TNumber 7) "hello" "7");
    reflexivity.
Defined.

Lemma first_wrong_text_is_reported_witness :
  call (diff tostringbuff PrefixDiff.engine) [TTable 0; TString "a"] loaded
  = Raise (bad_argument 1 "string")
      (set_calls (λ cs, cs ++ [call_diff_match_patch])
         (set_stack (λ _, []) loaded))
  ∧ call (spell tostringbuff class) [TString "en.aff"] loaded
    = Raise (bad_argument 2 "string") (set_stack (λ _, []) loaded).
Proof.
  split.
  - apply (first_wrong_text_is_reported tostringbuff PrefixDiff.engine class
             loaded [TTable 0; TString "a"]).
    apply not_text_table.
  - apply (first_wrong_text_is_reported tostringbuff PrefixDiff.engine class
             loaded [TString "en.aff"]).
    + exists (TString "en.aff"), "en.aff". split; reflexivity.
    + intros (v & w & Hv & _). discriminate Hv.
Defined.

Lemma diff_table_any_engine_witness :
  ∃ t L' tb,
    call (diff tostringbuff PrefixDiff.engine) [TString "ab"; TString a_nul_b]
         (fresh_state (Obj:=unit))
    = Done [TTable t] L'
    ∧ tables L' !! t = Some tb
    ∧ hash tb = ∅
    ∧ (∀ j : Z, is_Some (array tb !! j)
                ↔ (1 ≤ j ≤ 2 * Z.of_nat (length (script PrefixDiff.engine "ab" a_nul_b)))%Z)
    ∧ (∀ (i : nat) d, script PrefixDiff.engine "ab" a_nul_b !! i = Some d →
         array tb !! (2 * Z.of_nat i + 1)%Z
           = Some (TNumber (Operation_value (operation d)))
         ∧ array tb !! (2 * Z.of_nat i + 2)%Z
           = Some (TString (until_nul (text d))))
    ∧ (∀ (j : Z) s, array tb !! j = Some (TString s) → nul_free s = true).
Proof.
  apply (diff_table_any_engine tostringbuff PrefixDiff.engine fresh_state
           [TString "ab"; TString a_nul_b] (TString "ab") (TString a_nul_b)
           "ab" a_nul_b); reflexivity.
Defined.

Lemma handle_is_checked_first_witness :
  F_ls_suggest ∈ lib.*2
  ∧ call (cfunction tostringbuff PrefixDiff.engine class F_ls_suggest)
         [TString "hello"; TTable 0] loaded
    = Raise (bad_argument 1 "ta_spell") (set_stack (λ _, []) loaded)
  ∧ call (cfunction tostringbuff PrefixDiff.engine class F_ls_suggest)
         [TUserdata 0; TTable 0] loaded
    = Raise (bad_argument 2 "string") (set_stack (λ _, []) loaded)
  ∧ call (ls_adddic tostringbuff class)
         [TUserdata 0; TTable 0; TBoolean true] loaded
    = Raise (bad_argument 2 "string") (set_stack (λ _, []) loaded)
  ∧ call (ls_adddic_key_first tostringbuff class)
         [TUserdata 0; TTable 0; TBoolean true] loaded
    = Raise (bad_argument 3 "string") (set_stack (λ _, []) loaded).
Proof.
  assert (Hin : F_ls_suggest ∈ lib.*2) by (unfold lib; set_solver).
  assert (Hh : is_handle loaded (Some (TUserdata 0))).
  { exists 0, (mkUdata (Some 0) (Some 0)), 0. repeat split; reflexivity. }
  split; [exact Hin|]. split; [|split].
  - apply (proj1 (handle_is_checked_first tostringbuff PrefixDiff.engine class
                    F_ls_suggest [TString "hello"; TTable 0] loaded Hin)).
    intros (u & b & m & Hu & _). discriminate Hu.
  - refine (proj1 (proj2 (handle_is_checked_first tostringbuff
                             PrefixDiff.engine class F_ls_suggest
                             [TUserdata 0; TTable 0] loaded Hin)
                      Hh (not_text_table 0)) _).
    intros Heq. discriminate Heq.
  - refine (proj2 (proj2 (proj2 (handle_is_checked_first tostringbuff
                                    PrefixDiff.engine class F_ls_suggest
                                    [TUserdata 0; TTable 0; TBoolean true]
                                    loaded Hin)
                             Hh (not_text_table 0))) _).
    reflexivity.
Defined.

Lemma wrong_key_is_rejected_witness :
  opt_text_of tostringbuff ([TUserdata 0; TString "names.dic"; TBoolean true] !! 2) = None
  ∧ call (ls_adddic tostringbuff class)
         [TUserdata 0; TString "names.dic"; TBoolean true] loaded
    = Raise (bad_argument 3 "string") (set_stack (λ _, []) loaded).
Proof.
  split; [reflexivity|].
  apply (proj2 (wrong_key_is_rejected tostringbuff class
                  [TUserdata 0; TString "names.dic"; TBoolean true] loaded eq_refl)).
  - exact (handle_is_handle class loaded 0 0 words loaded_handle).
  - exists (TString "names.dic"), "names.dic". split; reflexivity.
Defined.

Lemma methods_touch_one_object_witness :
  F_ls_addword ∈ lib.*2
  ∧ handle class loaded 0 0 words
  ∧ ∃ L', ends_in (call (cfunction tostringbuff PrefixDiff.engine class F_ls_addword)
                        [TUserdata 0; TString "helo"] loaded) L'
          ∧ (∀ q, q ≠ 0 → natives L' !! q = natives loaded !! q)
          ∧ (∀ u' p' o', p' ≠ 0 → handle class loaded u' p' o' → handle class L' u' p' o').
Proof.
  assert (Hin : F_ls_addword ∈ lib.*2) by (unfold lib; set_solver).
  split; [exact Hin|]. split; [exact loaded_handle|].
  exact (methods_touch_one_object tostringbuff PrefixDiff.engine class
           F_ls_addword [TString "helo"] loaded 0 0 words Hin loaded_handle).
Defined.

Lemma calls_never_dangle_witness :
  sound class loaded
  ∧ ∃ L', run_calls tostringbuff PrefixDiff.engine class
            [(F_ls_addword, [TUserdata 0; TString "helo"]);
             (F_ls_spell, [TUserdata 7; TString "x"]);
             (F_spell, [TString "en.aff"; TString "names.dic"]);
             (F_ls_suggest, [TUserdata 1; TNumber 3; TNil]);
             (F_diff, [TTable 0]);
             (F_ls_adddic, [TUserdata 0; TString "missing.dic"; TTable 0])]
            loaded = Some L'
          ∧ sound class L'
          ∧ ∀ u p o, handle class loaded u p o → ∃ o', handle class L' u p o'.
Proof.
  split; [exact loaded_sound|].
  exact (calls_never_dangle tostringbuff PrefixDiff.engine class _ loaded loaded_sound).
Defined.

Lemma reopening_keeps_handles_witness :
  luaopen_spellcheck_spell64 class
    ∈ [luaopen_spell class; luaopen_spellcheck_spell class;
       luaopen_spellcheck_spell64 class; luaopen_spellcheck_spellosx class]
  ∧ registry loaded !! "ta_spell" = Some (TTable 0)
  ∧ tables loaded !! 0 = Some ta_spell
  ∧ ∃ L',
      call (luaopen_spellcheck_spell64 class) [] loaded = Done [TFunction F_spell] L'
      ∧ udata L' = udata loaded ∧ registry L' = registry loaded
      ∧ natives L' = natives loaded ∧ calls L' = calls loaded
      ∧ (∀ t, t ≠ 0 → tables L' !! t = tables loaded !! t)
      ∧ (∀ u p o, handle class loaded u p o → handle class L' u p o)
      ∧ (hash ta_spell = ta_spell_methods 0 → L' = set_stack (λ _, []) loaded).
Proof.
  assert (Hin : luaopen_spellcheck_spell64 class
                ∈ [luaopen_spell class; luaopen_spellcheck_spell class;
                   luaopen_spellcheck_spell64 class; luaopen_spellcheck_spellosx class]).
  { rewrite !elem_of_cons. right. right. left. reflexivity. }
  split; [exact Hin|]. split; [reflexivity|]. split; [reflexivity|].
  exact (reopening_keeps_handles class _ [] loaded 0 ta_spell Hin eq_refl eq_refl).
Defined.

Lemma handle_offers_the_methods_witness :
  handle class loaded 0 0 words
  ∧ registry loaded !! "ta_spell" = Some (TTable 0)
  ∧ tables loaded !! 0 = Some ta_spell
  ∧ hash ta_spell = ta_spell_methods 0
  ∧ (∀ name f, (name, f) ∈ lib → index_udata class loaded 0 name = Some (TFunction f))
  ∧ (∀ name, name ∉ ["add_dic"; "spell"; "suggest"; "add_word"; "__index"; "__name"] →
       index_udata class loaded 0 name = None).
Proof.
  split; [exact loaded_handle|]. do 3 (split; [reflexivity|]).
  exact (handle_offers_the_methods class loaded 0 0 words 0 ta_spell
           loaded_handle eq_refl eq_refl eq_refl).
Defined.

Lemma session_open_construct_add_spell_witness :
  registry (fresh_state (Obj:=list string)) !! "ta_spell" = None
  ∧ ∃ L1 L2 L3 L4 u p,
      call (luaopen_spell class) [] fresh_state = Done [TFunction F_spell] L1
      ∧ call (cfunction tostringbuff PrefixDiff.engine class F_spell)
             [TString "en.aff"; TString "en.dic"] L1
        = Done [TUserdata u] L2
      ∧ index_udata class L2 u "add_word" = Some (TFunction F_ls_addword)
      ∧ call (cfunction tostringbuff PrefixDiff.engine class F_ls_addword)
             [TUserdata u; TString "helo"] L2
        = Done [] L3
      ∧ index_udata class L3 u "spell" = Some (TFunction F_ls_spell)
      ∧ call (cfunction tostringbuff PrefixDiff.engine class F_ls_spell)
             [TUserdata u; TString "helo"] L3
        = Done [TBoolean true] L4
      ∧ handle class L4 u p (words ++ ["helo"])
      ∧ calls L4 = calls (fresh_state (Obj:=list string))
                   ++ [call_Hunspell (c_str "en.aff") (c_str "en.dic") None;
                       call_add p (c_str "helo"); call_spell p (c_str "helo")].
Proof.
  split; [reflexivity|].
  exact (session_open_construct_add_spell tostringbuff PrefixDiff.engine class
           fresh_state "en.aff" "en.dic" "helo" eq_refl).
Defined.

Lemma add_word_drops_status_witness :
  handle class loaded 0 0 words
  ∧ ∃ L',
      call (ls_addword tostringbuff class) [TUserdata 0; TNumber 42; TTable 9] loaded
      = Done [] L'
      ∧ handle class L' 0 0 (hs_add class words (c_str "42")).1
      ∧ natives L' = <[0 := (hs_add class words (c_str "42")).1]> (natives loaded)
      ∧ calls L' = calls loaded ++ [call_add 0 (c_str "42")]
      ∧ tables L' = tables loaded ∧ udata L' = udata loaded
      ∧ registry L' = registry loaded.
Proof.
  split; [exact loaded_handle|].
  exact (add_word_drops_status tostringbuff class loaded
           [TUserdata 0; TNumber 42; TTable 9] 0 0 words (TNumber 42) "42"
           loaded_handle eq_refl eq_refl eq_refl).
Defined.

Local Abbreviation framed :=
  (mkState [TTable 0; TNil] [empty_table] [] ∅ ([] : list (list string)) []).

Lemma l_setcfunction_sets_field_witness :
  index2value framed (-2) = Some (TTable 0)
  ∧ tables framed !! 0 = Some empty_table
  ∧ l_setcfunction class (-2) "spell" F_ls_spell framed
    = Done tt (set_tables
                 (λ ts, <[0 := mkTable ∅ (<["spell" := TFunction F_ls_spell]> ∅)]> ts)
                 framed).
Proof.
  split; [reflexivity|]. split; [reflexivity|].
  exact (l_setcfunction_sets_field class (-2) "spell" F_ls_spell framed 0 empty_table
           eq_refl eq_refl).
Defined.

End FurtherExamples.
